(** * chinese-quiz-gen: the quiz construction pipeline of [main.py]

    A shallow embedding of [extract_morphemes], [generate_alternatives],
    [create_quiz] and of the answer shuffling done in [main], together with
    the properties the specification states about them.

    Conventions.
    - A Python [str] is the list of its Unicode code points ([list N]), so
      that [len] is [length] also for Chinese text.  The tags spaCy attaches
      to a token ([pos_], [dep_]) are ASCII labels and are kept as [string].
    - The three collaborators the program reaches through globals are
      parameters of the development: the Gemini model ([model], whose
      [generate_content] may raise), the spaCy pipeline ([nlp]) and the
      process-wide pseudo-random generator ([rand], the stream of raw draws).
    - Exceptions are the [Raise] outcome of a small state-and-error monad;
      its state records the calls made to the collaborators, the number of
      random draws consumed and the heap of list objects. *)

From Stdlib Require Import ZArith NArith Lia String Ascii Decimal.
From stdpp Require Import base option list strings gmap sorting.

Local Open Scope string_scope.
Local Open Scope list_scope.
Local Open Scope nat_scope.

(** ** Python strings *)

Abbreviation str := (list N).

(** An ASCII literal of the source as a [str]. *)
Definition lit (s : string) : str := N_of_ascii <$> list_ascii_of_string s.

(** [str.isspace] for one code point: the code points Python treats as
    whitespace. *)
Definition isspace (c : N) : bool :=
  ((9 <=? c) && (c <=? 13) || (28 <=? c) && (c <=? 32)
   || (c =? 133) || (c =? 160) || (c =? 5760)
   || (8192 <=? c) && (c <=? 8202)
   || (c =? 8232) || (c =? 8233) || (c =? 8239) || (c =? 8287)
   || (c =? 12288))%N.

Fixpoint lstrip (s : str) : str :=
  match s with
  | c :: s' => if isspace c then lstrip s' else s
  | [] => []
  end.

Definition rstrip (s : str) : str := reverse (lstrip (reverse s)).

(** [s.strip()] *)
Definition strip (s : str) : str := rstrip (lstrip s).

(** [s.split(sep)] for a separator of one code point. *)
Fixpoint split (sep : N) (s : str) : list str :=
  match s with
  | [] => [[]]
  | c :: s' =>
      if (c =? sep)%N then [] :: split sep s'
      else match split sep s' with
           | field :: fields => (c :: field) :: fields
           | [] => [[c]]
           end
  end.

(** [s.startswith(old)] *)
Fixpoint startswith (old s : str) : bool :=
  match old, s with
  | [], _ => true
  | _ :: _, [] => false
  | a :: old', c :: s' => (a =? c)%N && startswith old' s'
  end.

(** The scan of [s.replace(old, new)] and of [s.count(old)] for a non-empty
    [old]: left to right, each match consumes [len(old)] code points, so the
    matches found do not overlap.  [fuel] bounds the number of positions
    visited; [length s] is enough. *)
Fixpoint replace_scan (fuel : nat) (old new s : str) : str :=
  match fuel, s with
  | S fuel', c :: s' =>
      if startswith old s then new ++ replace_scan fuel' old new (drop (length old) s)
      else c :: replace_scan fuel' old new s'
  | _, _ => s
  end.

Fixpoint count_scan (fuel : nat) (old s : str) : nat :=
  match fuel, s with
  | S fuel', c :: s' =>
      if startswith old s then S (count_scan fuel' old (drop (length old) s))
      else count_scan fuel' old s'
  | _, _ => 0
  end.

(** [s.replace(old, new)].  With an empty [old] Python puts [new] before
    every code point and at the end. *)
Definition replace (old new s : str) : str :=
  match old with
  | [] => new ++ flat_map (λ c, c :: new) s
  | _ :: _ => replace_scan (length s) old new s
  end.

(** [s.count(old)] *)
Definition count (old s : str) : nat :=
  match old with
  | [] => S (length s)
  | _ :: _ => count_scan (length s) old s
  end.

Arguments replace : simpl never.
Arguments count : simpl never.

(** [str(i)] for a non-negative [i]. *)
Fixpoint digits (d : Decimal.uint) : str :=
  match d with
  | Nil => []
  | D0 d' => 48%N :: digits d'
  | D1 d' => 49%N :: digits d'
  | D2 d' => 50%N :: digits d'
  | D3 d' => 51%N :: digits d'
  | D4 d' => 52%N :: digits d'
  | D5 d' => 53%N :: digits d'
  | D6 d' => 54%N :: digits d'
  | D7 d' => 55%N :: digits d'
  | D8 d' => 56%N :: digits d'
  | D9 d' => 57%N :: digits d'
  end.

Definition str_of_nat (i : nat) : str := digits (Nat.to_uint i).

(** ** Annotated tokens and compounds *)

(** What [extract_morphemes] reads of a spaCy token; [ancestors] lists the
    [pos_] of each token of [token.ancestors]. *)
Record Token := {
  text : str;
  pos_ : string;
  dep_ : string;
  head_text : str;
  is_punct : bool;
  is_space : bool;
  ancestors : list string
}.

(** The dictionary built for an accepted token. *)
Record Compound := {
  c_text : str;
  c_pos : string;
  c_dep : string;
  c_head : str
}.

Definition compound_of (token : Token) : Compound :=
  {| c_text := text token; c_pos := pos_ token;
     c_dep := dep_ token; c_head := head_text token |}.

(** ** [extract_morphemes]: the filter loop *)

Definition outer_test (token : Token) : bool :=
  bool_decide (pos_ token ∈ ["NOUN"; "VERB"; "ADJ"])
  && bool_decide (2 ≤ length (text token))
  && negb (is_punct token)
  && negb (is_space token).

Definition inner_test (compounds : list Compound) (compound : Compound)
    (token : Token) : bool :=
  bool_decide (c_text compound ∉ (c_text <$> compounds))
  && (bool_decide (c_dep compound ∈ ["nsubj"; "dobj"; "compound"])
      || existsb (λ pos, bool_decide (pos = "NOUN")) (ancestors token)).

Definition filter_step (compounds : list Compound) (token : Token)
    : list Compound :=
  if outer_test token then
    let compound := compound_of token in
    if inner_test compounds compound token then compounds ++ [compound]
    else compounds
  else compounds.

Definition filter_loop (doc : list Token) : list Compound :=
  foldl filter_step [] doc.

(** ** [extract_morphemes]: the ranking *)

(** The sort key [(x["pos"] == "NOUN", len(x["text"]), x["dep"] in
    ["nsubj", "dobj"])]. *)
Definition sort_key (x : Compound) : bool * nat * bool :=
  (bool_decide (c_pos x = "NOUN"),
   length (c_text x),
   bool_decide (c_dep x ∈ ["nsubj"; "dobj"])).

(** Python's [<] on such tuples: lexicographic, with [False < True]. *)
Definition key_lt (a b : bool * nat * bool) : bool :=
  let '(a1, a2, a3) := a in
  let '(b1, b2, b3) := b in
  if bool_decide (a1 = b1) then
    if a2 =? b2 then negb a3 && b3 else a2 <? b2
  else negb a1 && b1.
Arguments key_lt : simpl never.

(** [compounds.sort(key=..., reverse=True)].  Python's sort is stable, also
    with [reverse=True]: the result is in descending key order and elements
    of equal key keep their original order.  That fixes the result, which
    the insertion sort below computes: an element goes in front of the
    already sorted elements that followed it, up to the first one whose key
    is strictly greater. *)
Fixpoint insert_desc (x : Compound) (sorted : list Compound) : list Compound :=
  match sorted with
  | [] => [x]
  | y :: sorted' =>
      if key_lt (sort_key x) (sort_key y) then y :: insert_desc x sorted'
      else x :: y :: sorted'
  end.

Definition sort_reverse (compounds : list Compound) : list Compound :=
  foldr insert_desc [] compounds.

(** The list [morphemes] of [extract_morphemes] for an annotated document. *)
Definition ranked_morphemes (doc : list Token) : list str :=
  c_text <$> sort_reverse (filter_loop doc).

(** ** Effects *)

Inductive exn := ValueError | IndexError.

Inductive Outcome (A : Type) :=
  | Ok (a : A)
  | Raise (e : exn).
Arguments Ok {A} a.
Arguments Raise {A} e.

(** A call to one of the two services. *)
Inductive Call :=
  | GenerateContent (prompt : str)
  | Nlp (passage : str).

Abbreviation loc := nat (only parsing).

Record World := {
  calls : list Call;              (* service calls made so far, oldest first *)
  draws : nat;                    (* random draws consumed so far *)
  heap : gmap loc (list str)      (* the list objects that get mutated *)
}.

Definition M (A : Type) : Type := World → Outcome A * World.

Definition ret {A} (a : A) : M A := λ w, (Ok a, w).

Definition raise {A} (e : exn) : M A := λ w, (Raise e, w).

Definition bind {A B} (m : M A) (k : A → M B) : M B :=
  λ w, match m w with
       | (Ok a, w') => k a w'
       | (Raise e, w') => (Raise e, w')
       end.

#[export] Instance M_ret : MRet M := @ret.
#[export] Instance M_bind : MBind M := λ A B k m, bind m k.

(** The world after the calls [cs] have been made. *)
Definition record_calls (cs : list Call) (w : World) : World :=
  {| calls := calls w ++ cs; draws := draws w; heap := heap w |}.

Definition log_call (c : Call) : M unit := λ w, (Ok (), record_calls [c] w).

(** Allocation of a new list object. *)
Definition alloc (l : list str) : M loc :=
  λ w, let x := fresh (dom (heap w)) in
       (Ok x, {| calls := calls w; draws := draws w; heap := <[x := l]> (heap w) |}).

Definition read (x : loc) : M (list str) := λ w, (Ok (heap w !!! x), w).

Definition write (x : loc) (l : list str) : M unit :=
  λ w, (Ok (), {| calls := calls w; draws := draws w; heap := <[x := l]> (heap w) |}).

Section Program.

(** [model.generate_content(prompt).text]; [None] when the call raises. *)
Variable model_generate_content : str → option str.

(** [nlp(text)] as the sequence of its tokens. *)
Variable nlp : str → list Token.

(** The raw draws of the [random] module's generator, in order. *)
Variable rand : nat → nat.

Definition generate_content (prompt : str) : M (option str) :=
  log_call (GenerateContent prompt);; ret (model_generate_content prompt).

Definition call_nlp (passage : str) : M (list Token) :=
  log_call (Nlp passage);; ret (nlp passage).

(** [random._randbelow(n)]: the next draw, reduced below [n]. *)
Definition randbelow (n : nat) : M nat :=
  λ w, (Ok (match n with 0 => 0 | S _ => rand (draws w) mod n end),
        {| calls := calls w; draws := S (draws w); heap := heap w |}).

(** The selection loop of [random.sample] for a population of at most 21
    elements, the only case reached here (the population is
    [morphemes[:10]]): in round [i] the element at a random index below
    [n - i] of [pool] is taken and its slot refilled with the last element
    not yet taken. *)
Fixpoint sample_loop (rounds i n : nat) (pool : list str) : M (list str) :=
  match rounds with
  | 0 => ret []
  | S rounds' =>
      j ← randbelow (n - i);
      match pool !! j, pool !! (n - i - 1) with
      | Some picked, Some last =>
          result ← sample_loop rounds' (S i) n (<[j := last]> pool);
          ret (picked :: result)
      | _, _ => raise IndexError
      end
  end.

(** [random.sample(population, k)] *)
Definition random_sample (population : list str) (k : Z) : M (list str) :=
  let n := length population in
  if bool_decide (0 ≤ k ≤ Z.of_nat n)%Z then sample_loop (Z.to_nat k) 0 n population
  else raise ValueError.

(** The statements of [extract_morphemes] after the sort. *)
Definition sample_morphemes (morphemes : list str) (num_morphemes : Z)
    : M (list str) :=
  if bool_decide (Z.of_nat (length morphemes) < num_morphemes)%Z then ret morphemes
  else random_sample (take 10 morphemes) num_morphemes.

Definition extract_morphemes (passage : str) (num_morphemes : Z) : M (list str) :=
  doc ← call_nlp passage;
  sample_morphemes (ranked_morphemes doc) num_morphemes.

Definition response_prompt (prompt : str) : str :=
  lit "Please provide an informational response in Chinese about: "
  ++ prompt
  ++ lit ". The response should be detailed and at least 3-4 sentences long.".

(** The value of [generate_chinese_response] for the model's answer: the
    stripped text, or the empty string when the call raised. *)
Definition response_text (response : option str) : str :=
  match response with
  | Some answer => strip answer
  | None => []
  end.

Definition generate_chinese_response (prompt : str) : M str :=
  response ← generate_content (response_prompt prompt);
  ret (response_text response).

Definition alternatives_prompt (morpheme : str) : str :=
  lit "For the Chinese compound '"
  ++ morpheme
  ++ lit "', generate 3 other Chinese compounds of the same length that are semantically related but have different meanings. The alternatives should be plausible in the context but incorrect. Return only the three alternatives, separated by '|'. Do not include any other text.".

(** What [generate_alternatives] makes of the model's answer. *)
Definition parse_alternatives (response : option str) : list str :=
  match response with
  | Some answer => strip <$> take 3 (split 124%N (strip answer))
  | None => []
  end.

Definition generate_alternatives (morpheme : str) : M (list str) :=
  response ← generate_content (alternatives_prompt morpheme);
  ret (parse_alternatives response).

Record QuizItem := {
  original_morpheme : str;
  alternatives : list str
}.

(** The placeholder [f" ({i}) "]. *)
Definition placeholder (i : nat) : str := lit " (" ++ str_of_nat i ++ lit ") ".

(** The [for] loop of [create_quiz], from index [i] on. *)
Fixpoint quiz_loop (i : nat) (target_morphemes : list str)
    (quiz_items : list QuizItem) (masked_text : str)
    : M (list QuizItem * str) :=
  match target_morphemes with
  | [] => ret (quiz_items, masked_text)
  | morpheme :: rest =>
      alts ← generate_alternatives morpheme;
      let quiz_items' :=
        match alts with
        | [] => quiz_items
        | _ :: _ =>
            quiz_items ++ [{| original_morpheme := morpheme; alternatives := alts |}]
        end in
      quiz_loop (S i) rest quiz_items' (replace morpheme (placeholder i) masked_text)
  end.

Definition create_quiz (prompt : str) : M (str * list QuizItem * str) :=
  response ← generate_chinese_response prompt;
  match response with
  | [] => ret ([], [], [])
  | _ :: _ =>
      target_morphemes ← extract_morphemes response 10;
      result ← quiz_loop 0 target_morphemes [] response;
      ret (response, result.1, result.2)
  end.

(** ** The answer shuffling of [main] *)

(** A quiz item as [main] holds it: the dictionary refers to its list of
    alternatives, a mutable object on the heap. *)
Record ItemRef := {
  item_original_morpheme : str;
  item_alternatives : loc
}.

(** [x[i], x[j] = x[j], x[i]] *)
Definition swap (x : loc) (i j : nat) : M unit :=
  l ← read x;
  match l !! j, l !! i with
  | Some xj, Some xi => write x (<[j := xi]> (<[i := xj]> l))
  | _, _ => raise IndexError
  end.

(** [for i in reversed(range(1, i + 1))] of [random.shuffle] *)
Fixpoint shuffle_loop (i : nat) (x : loc) : M unit :=
  match i with
  | 0 => ret ()
  | S i' => j ← randbelow (S i); (swap x i j;; shuffle_loop i' x)
  end.

(** [random.shuffle(x)] *)
Definition shuffle (x : loc) : M unit :=
  l ← read x; shuffle_loop (length l - 1) x.

(** [joined_answers = item["alternatives"] + [item["original_morpheme"]]]
    followed by [random.shuffle(joined_answers)]; the result is the list
    printed. *)
Definition present (item : ItemRef) : M loc :=
  alts ← read (item_alternatives item);
  joined_answers ← alloc (alts ++ [item_original_morpheme item]);
  shuffle joined_answers;;
  ret joined_answers.

End Program.

(** ** The properties of the specification, as predicates *)

(** The membership condition of the filter stage for a token met after the
    candidates [accepted] have been kept. *)
Definition is_candidate (accepted : list Compound) (token : Token) : Prop :=
  pos_ token ∈ ["NOUN"; "VERB"; "ADJ"]
  ∧ 2 ≤ length (text token)
  ∧ is_punct token = false
  ∧ is_space token = false
  ∧ (text token ∉ (c_text <$> accepted))
  ∧ (dep_ token ∈ ["nsubj"; "dobj"; "compound"] ∨ "NOUN" ∈ ancestors token).

#[export] Instance is_candidate_dec (accepted : list Compound) (token : Token) :
  Decision (is_candidate accepted token).
Proof. unfold is_candidate. apply _. Defined.

(** The composite ranking of the specification: is-noun first, then the
    length of the text, then whether the dependency role is subject or
    direct object. *)
Definition is_noun (x : Compound) : Prop := c_pos x = "NOUN".

Definition is_core (x : Compound) : Prop := c_dep x ∈ ["nsubj"; "dobj"].

Definition outranks (x y : Compound) : Prop :=
  (is_noun x ∧ ¬ is_noun y)
  ∨ ((is_noun x ↔ is_noun y) ∧ length (c_text y) < length (c_text x))
  ∨ ((is_noun x ↔ is_noun y) ∧ length (c_text x) = length (c_text y)
     ∧ is_core x ∧ ¬ is_core y).

Definition ties (x y : Compound) : Prop :=
  (is_noun x ↔ is_noun y)
  ∧ length (c_text x) = length (c_text y)
  ∧ (is_core x ↔ is_core y).

#[export] Instance ties_dec (x y : Compound) : Decision (ties x y).
Proof. unfold ties, is_noun, is_core. apply _. Defined.

(** [x]'s sort key is not below [y]'s. *)
Definition key_ge (x y : Compound) : Prop :=
  key_lt (sort_key x) (sort_key y) = false.

(** The sampling law as the specification words it, for the eligible pool
    (the first ten ranked candidates), the requested count and the outcome
    of the selector. *)
Definition sampling_law_as_stated (pool : list str) (maxCount : Z)
    (outcome : Outcome (list str)) : Prop :=
  if bool_decide (Z.of_nat (length pool) ≤ maxCount)%Z then outcome = Ok pool
  else ∃ l, outcome = Ok l ∧ Z.of_nat (length l) = maxCount ∧ NoDup l ∧ l ⊆ pool.

(** A literal occurrence of [m] in [s]. *)
Definition occurs (m s : str) : Prop := ∃ a b, s = a ++ m ++ b.

(** Masking as the specification describes it: the morphemes, numbered from
    [i] on in processing order, are replaced one after the other in the text
    masked so far. *)
Definition enumerate_from (i : nat) (morphemes : list str) : list (nat * str) :=
  zip (seq i (length morphemes)) morphemes.

Definition mask_step (masked : str) (indexed : nat * str) : str :=
  replace indexed.2 (placeholder indexed.1) masked.

Definition mask_all (morphemes : list str) (passage : str) : str :=
  foldl mask_step passage (enumerate_from 0 morphemes).

(** The alternatives the distractor oracle [model] yields for a morpheme. *)
Definition alternatives_for (model : str → option str) (morpheme : str)
    : list str :=
  parse_alternatives (model (alternatives_prompt morpheme)).

(** The morphemes that get a quiz item: those with at least one
    alternative. *)
Definition answerable (model : str → option str) (morphemes : list str)
    : list str :=
  filter (λ m, alternatives_for model m ≠ []) morphemes.

Definition item_for (model : str → option str) (morpheme : str) : QuizItem :=
  {| original_morpheme := morpheme;
     alternatives := alternatives_for model morpheme |}.

(** The calls to the distractor oracle for the morphemes, in order. *)
Definition distractor_calls (morphemes : list str) : list Call :=
  (λ m, GenerateContent (alternatives_prompt m)) <$> morphemes.

(** The masking check of the specification for a passage and a morpheme, as
    it is worded: two occurrences of the morpheme become two placeholders of
    index 3 and none of the morpheme. *)
Definition masking_check_as_stated (passage morpheme : str) : Prop :=
  count morpheme passage = 2 →
  count (placeholder 3) (replace morpheme (placeholder 3) passage) = 2
  ∧ ¬ occurs morpheme (replace morpheme (placeholder 3) passage).

(** The quiz invariant of the specification: the morpheme masked under the
    label [i] is the original morpheme of the quiz item of index [i]. *)
Definition masked_only_with_item (morphemes : list str)
    (quiz_items : list QuizItem) : Prop :=
  ∀ i m, morphemes !! i = Some m →
         ∃ item, quiz_items !! i = Some item ∧ original_morpheme item = m.

(** The recovery of the specification: a morpheme without alternatives still
    has a quiz item, with an empty list of alternatives. *)
Definition failure_keeps_empty_item (model : str → option str)
    (morphemes : list str) (quiz_items : list QuizItem) : Prop :=
  ∀ m, m ∈ morphemes → alternatives_for model m = [] →
       {| original_morpheme := m; alternatives := [] |} ∈ quiz_items.

(** The quiz item invariant of the specification. *)
Definition alternatives_exclude_original (quiz_items : list QuizItem) : Prop :=
  ∀ item, item ∈ quiz_items → original_morpheme item ∉ alternatives item.

(** ** Concrete inputs *)

(** A token with no ancestors that is neither punctuation nor whitespace. *)
Definition word (t : str) (pos dep : string) : Token :=
  {| text := t; pos_ := pos; dep_ := dep; head_text := t;
     is_punct := false; is_space := false; ancestors := [] |}.

(** 学校, 跑步, 研究所 *)
Definition xuexiao : str := [23398; 26657]%N.
Definition paobu : str := [36305; 27493]%N.
Definition yanjiusuo : str := [30740; 31350; 25152]%N.

Definition ranking_example : list Compound :=
  [ compound_of (word xuexiao "NOUN" "nsubj");
    compound_of (word paobu "VERB" "ROOT");
    compound_of (word yanjiusuo "NOUN" "conj") ].

(** The world before the program has done anything. *)
Definition initial_world : World := {| calls := []; draws := 0; heap := ∅ |}.

(** Eleven distinct two-character nouns in subject position; they all have
    the same sort key, so their ranking is their encounter order. *)
Definition noun (c : N) : Token := word [c; c] "NOUN" "nsubj".

Definition eleven_nouns : list Token :=
  noun <$> [20001; 20002; 20003; 20004; 20005; 20006; 20007; 20008; 20009;
            20010; 20011]%N.

Definition ten_nouns : list Token := take 10 eleven_nouns.

Definition two_nouns : list Token := take 2 eleven_nouns.

(** 音乐; the passage 音乐 (3) 音乐, which already holds the placeholder of
    index 3; and the passage 我爱 音乐，3 音乐, which holds some of its code
    points. *)
Definition yinyue : str := [38899; 20048]%N.

Definition premasked_passage : str := yinyue ++ placeholder 3 ++ yinyue.

Definition spaced_passage : str :=
  [25105; 29233; 32]%N ++ yinyue ++ [65292; 51; 32]%N ++ yinyue.

(** The end-to-end scenario of the specification: the topic
    [tea ceremonies], the passage 茶道是一种传统文化。茶道注重礼仪。, its one
    candidate 茶道 and the distractors 茶艺|茶叶|茶杯. *)
Definition topic : str := lit "tea ceremonies".

Definition chadao : str := [33590; 36947]%N.

Definition tea_passage : str :=
  [33590; 36947; 26159; 19968; 31181; 20256; 32479; 25991; 21270; 12290;
   33590; 36947; 27880; 37325; 31036; 20202; 12290]%N.

Definition tea_nlp (passage : str) : list Token := [word chadao "NOUN" "nsubj"].

Definition tea_model (prompt : str) : option str :=
  if decide (prompt = response_prompt topic) then Some tea_passage
  else if decide (prompt = alternatives_prompt chadao) then
    Some [33590; 33402; 124; 33590; 21494; 124; 33590; 26479]%N
  else None.

(** The same scenario with a model that answers 茶道|茶叶|茶杯: it offers
    the morpheme itself as an alternative. *)
Definition echo_model (prompt : str) : option str :=
  if decide (prompt = response_prompt topic) then Some tea_passage
  else if decide (prompt = alternatives_prompt chadao) then
    Some [33590; 36947; 124; 33590; 21494; 124; 33590; 26479]%N
  else None.

(** A passage 学校研究所 with two candidates, ranked 研究所 then 学校; the
    model answers 学院|学生|学期 for 学校 and raises for 研究所. *)
Definition school_passage : str := xuexiao ++ yanjiusuo.

Definition school_nlp (passage : str) : list Token :=
  [word xuexiao "NOUN" "nsubj"; word yanjiusuo "NOUN" "dobj"].

Definition school_alternatives : list str :=
  [[23398; 38498]; [23398; 29983]; [23398; 26399]]%N.

Definition school_model (prompt : str) : option str :=
  if decide (prompt = response_prompt topic) then Some school_passage
  else if decide (prompt = alternatives_prompt xuexiao) then
    Some [23398; 38498; 124; 23398; 29983; 124; 23398; 26399]%N
  else None.

(** A model whose every call raises, and one that answers every call with
    blanks. *)
Definition failing_model (prompt : str) : option str := None.

Definition blank_model (prompt : str) : option str := Some (lit "  ").

(** A passage for which the annotation yields no candidate. *)
Definition plain_model (prompt : str) : option str := Some tea_passage.

Definition no_nlp (passage : str) : list Token := [].

Definition no_draws (i : nat) : nat := 0.

(** The quiz item of the tea scenario as [main] holds it: its list of
    alternatives is the object at location 0. *)
Definition tea_alternatives : list str :=
  [[33590; 33402]; [33590; 21494]; [33590; 26479]]%N.

Definition tea_item : ItemRef :=
  {| item_original_morpheme := chadao; item_alternatives := 0 |}.

Definition display_world : World :=
  {| calls := []; draws := 0; heap := {[ 0 := tea_alternatives ]} |}.

Definition some_draws (i : nat) : nat := 5 * i + 1.

(** The two selected morphemes of the passage 学校研究所, in processing
    order. *)
Definition school_morphemes : list str := [yanjiusuo; xuexiao].

(** ** Proof tactics *)

(** Case analysis on the components of the sort keys of [x] and [y]. *)
Ltac case_keys x y :=
  unfold sort_key, key_lt, is_noun, is_core in *;
  destruct (bool_decide_reflect (c_pos x = "NOUN")),
    (bool_decide_reflect (c_pos y = "NOUN")),
    (bool_decide_reflect (c_dep x ∈ ["nsubj"; "dobj"])),
    (bool_decide_reflect (c_dep y ∈ ["nsubj"; "dobj"]));
  simpl in *;
  destruct (Nat.eqb_spec (length (c_text x)) (length (c_text y)));
  destruct (Nat.eqb_spec (length (c_text y)) (length (c_text x)));
  simpl in *; rewrite ?Nat.ltb_lt, ?Nat.ltb_ge in *.

(** Unfolding of the monad operations. *)
Ltac unfold_M :=
  unfold mbind, M_bind, bind, mret, M_ret, ret, raise in *.

(** ** [main] *)

(** The headers [main] prints; each [print] call is one element of the
    output, its argument. *)
Definition content_header : str := 10%N :: lit "=== Generated Content ===".
Definition masked_header : str := 10%N :: lit "=== Masked Text ===".
Definition items_header : str := 10%N :: lit "=== Quiz Items ===".

(** [f"\nQuestion {i - 1}:"] *)
Definition question_header (i : nat) : str :=
  10%N :: lit "Question " ++ str_of_nat (i - 1) ++ lit ":".

(** [f"  {j}. {alt}"] *)
Definition answer_line (j : nat) (alt : str) : str :=
  lit "  " ++ str_of_nat j ++ lit ". " ++ alt.

(** [for j, alt in enumerate(joined_answers, j)]: the lines printed. *)
Fixpoint answer_lines (j : nat) (joined_answers : list str) : list str :=
  match joined_answers with
  | [] => []
  | alt :: rest => answer_line j alt :: answer_lines (S j) rest
  end.

(** The quiz items as [main] holds them: the list of alternatives that
    [create_quiz] built for each item is a list object of its own. *)
Fixpoint store_items (quiz_items : list QuizItem) : M (list ItemRef) :=
  match quiz_items with
  | [] => ret []
  | item :: rest =>
      x ← alloc (alternatives item);
      refs ← store_items rest;
      ret ({| item_original_morpheme := original_morpheme item;
              item_alternatives := x |} :: refs)
  end.

Section Main.

Variable model_generate_content : str → option str.
Variable nlp : str → list Token.
Variable rand : nat → nat.

(** [for i, item in enumerate(quiz_items, i)] of [main]: the lines
    printed. *)
Fixpoint questions_loop (i : nat) (quiz_items : list ItemRef) : M (list str) :=
  match quiz_items with
  | [] => ret []
  | item :: rest =>
      joined_answers ← present rand item;
      answers ← read joined_answers;
      lines ← questions_loop (S i) rest;
      ret (question_header i :: answer_lines 1 answers ++ lines)
  end.

(** [main], for the topic typed at the prompt; the result is the sequence
    of the arguments of its own [print] calls.  The messages that
    [generate_chinese_response] and [generate_alternatives] print when the
    model raises carry the text of the exception and are not part of
    it. *)
Definition main (prompt : str) : M (list str) :=
  result ← create_quiz model_generate_content nlp rand prompt;
  items ← store_items result.1.2;
  lines ← questions_loop 1 items;
  ret ([content_header; result.1.1; masked_header; result.2; items_header]
       ++ lines).

End Main.

(** ** Further predicates *)

(** A token that passes every test of the filter loop except the one on
    texts already kept. *)
Definition eligible (token : Token) : Prop :=
  pos_ token ∈ ["NOUN"; "VERB"; "ADJ"]
  ∧ 2 ≤ length (text token)
  ∧ is_punct token = false
  ∧ is_space token = false
  ∧ (dep_ token ∈ ["nsubj"; "dobj"; "compound"] ∨ "NOUN" ∈ ancestors token).

(** The number of ranked candidates of a passage, [len(morphemes)]. *)
Definition candidate_count (nlp : str → list Token) (passage : str) : Z :=
  Z.of_nat (length (ranked_morphemes (nlp passage))).

(** [num_morphemes] is a count for which [extract_morphemes] samples. *)
Definition samples (nlp : str → list Token) (passage : str)
    (num_morphemes : Z) : Prop :=
  (0 ≤ num_morphemes ≤ 10)%Z ∧ (num_morphemes ≤ candidate_count nlp passage)%Z.

#[export] Instance samples_dec nlp passage num_morphemes :
  Decision (samples nlp passage num_morphemes).
Proof. unfold samples. apply _. Defined.

(** [sep.join(fields)] for a separator of one code point. *)
Fixpoint join (sep : N) (fields : list str) : str :=
  match fields with
  | [] => []
  | [field] => field
  | field :: rest => field ++ sep :: join sep rest
  end.

(** [fields] with [suffix] appended to its last element. *)
Fixpoint append_last (fields : list str) (suffix : str) : list str :=
  match fields with
  | [] => []
  | [field] => [field ++ suffix]
  | field :: rest => field :: append_last rest suffix
  end.

(** A string that neither starts nor ends with whitespace. *)
Definition stripped (s : str) : Prop :=
  (∀ c, head s = Some c → isspace c = false)
  ∧ (∀ c, last s = Some c → isspace c = false).

(** Every code point of [s] is whitespace. *)
Definition blank (s : str) : Prop := Forall (λ c, isspace c = true) s.

(** The code points a placeholder [" (i) "] is made of: the space, the two
    parentheses and the decimal digits. *)
Definition placeholder_char (c : N) : Prop :=
  c = 32%N ∨ c = 40%N ∨ c = 41%N ∨ (48 ≤ c ≤ 57)%N.

(** A text without any code point of a placeholder. *)
Definition placeholder_free (s : str) : Prop :=
  ∀ c, c ∈ s → ¬ placeholder_char c.

(** What the loop of [main] prints for the shuffled answer lists
    [shuffles], the first question being numbered [i - 1]. *)
Fixpoint printed_questions (i : nat) (shuffles : list (list str)) : list str :=
  match shuffles with
  | [] => []
  | joined_answers :: rest =>
      question_header i :: answer_lines 1 joined_answers
      ++ printed_questions (S i) rest
  end.

(** A shuffled answer list for a quiz item: a rearrangement of its
    alternatives and its original morpheme. *)
Definition answers_of (item : QuizItem) (joined_answers : list str) : Prop :=
  joined_answers ≡ₚ alternatives item ++ [original_morpheme item].

(** * Properties *)

(** ** The filter stage *)

Lemma existsb_noun (tags : list string) :
  existsb (λ pos, bool_decide (pos = "NOUN")) tags = true ↔ "NOUN" ∈ tags.
Proof.
  rewrite existsb_exists. split.
  - intros (pos & Hin & Heq). apply bool_decide_eq_true in Heq. subst pos.
    by apply list_elem_of_In.
  - intros Hin. exists "NOUN". split; [by apply list_elem_of_In|].
    by apply bool_decide_eq_true.
Qed.

Lemma filter_step_accepts (compounds : list Compound) (token : Token) :
  is_candidate compounds token →
  filter_step compounds token = compounds ++ [compound_of token].
Proof.
  intros (Hpos & Hlen & Hpunct & Hspace & Hnew & Hrole).
  unfold filter_step, outer_test, inner_test. simpl.
  rewrite Hpunct, Hspace, !bool_decide_eq_true_2 by done. simpl.
  destruct Hrole as [Hdep | Hanc].
  - by rewrite (bool_decide_eq_true_2 _ Hdep).
  - apply existsb_noun in Hanc. rewrite Hanc. by rewrite orb_true_r.
Qed.

Lemma filter_step_rejects (compounds : list Compound) (token : Token) :
  ¬ is_candidate compounds token → filter_step compounds token = compounds.
Proof.
  intros Hno. unfold filter_step.
  destruct (outer_test token) eqn:Houter; [|done].
  destruct (inner_test compounds (compound_of token) token) eqn:Hinner; [|done].
  exfalso. apply Hno. unfold outer_test in Houter. unfold inner_test in Hinner.
  simpl in Hinner.
  repeat (apply andb_true_iff in Houter as [Houter ?]).
  apply andb_true_iff in Hinner as [Hnew Hrole].
  repeat split.
  - by apply bool_decide_eq_true in Houter.
  - by eapply bool_decide_eq_true.
  - by apply negb_true_iff.
  - by apply negb_true_iff.
  - by apply bool_decide_eq_true in Hnew.
  - apply orb_true_iff in Hrole as [Hdep | Hanc].
    + left. by apply bool_decide_eq_true in Hdep.
    + right. by apply existsb_noun.
Qed.

Lemma foldl_filter_step_prefix (doc : list Token) (compounds : list Compound) :
  compounds `prefix_of` foldl filter_step compounds doc.
Proof.
  revert compounds. induction doc as [|token doc IH]; intros compounds; simpl.
  - done.
  - etrans; [|apply IH]. unfold filter_step.
    repeat case_match; try done. by apply prefix_app_r.
Qed.

Lemma foldl_filter_step_NoDup (doc : list Token) (compounds : list Compound) :
  NoDup (c_text <$> compounds) →
  NoDup (c_text <$> foldl filter_step compounds doc).
Proof.
  revert compounds. induction doc as [|token doc IH]; intros compounds Hnd; simpl.
  - done.
  - apply IH. unfold filter_step.
    destruct (outer_test token); [|done].
    destruct (inner_test compounds (compound_of token) token) eqn:Hinner; [|done].
    unfold inner_test in Hinner. apply andb_true_iff in Hinner as [Hnew _].
    apply bool_decide_eq_true in Hnew. simpl in Hnew.
    rewrite fmap_app. simpl. apply NoDup_app. split_and!; [done| |apply NoDup_singleton].
    intros x Hx Hx'. apply list_elem_of_singleton in Hx'. by subst x.
Qed.

Lemma filter_loop_NoDup (doc : list Token) : NoDup (c_text <$> filter_loop doc).
Proof. apply foldl_filter_step_NoDup. simpl. apply NoDup_nil_2. Qed.

(** C5. Filter stage membership: a token met after the candidates
    [accepted] is appended to them if and only if its part of speech is
    noun, verb or adjective, its text has at least two code points, it is
    neither punctuation nor whitespace, its text is not the text of a
    candidate kept before, and its dependency role is [nsubj], [dobj] or
    [compound] or one of its ancestors is a noun; otherwise the candidates
    stay as they are.  Later tokens never remove a candidate, and no two
    candidates of the result have the same text. *)
Theorem filter_stage_membership (before after : list Token) (token : Token) :
  let accepted := filter_loop before in
  (is_candidate accepted token ↔
     filter_loop (before ++ [token]) = accepted ++ [compound_of token])
  ∧ (¬ is_candidate accepted token ↔ filter_loop (before ++ [token]) = accepted)
  ∧ filter_loop (before ++ [token]) `prefix_of` filter_loop (before ++ token :: after)
  ∧ NoDup (c_text <$> filter_loop (before ++ token :: after)).
Proof.
  intros accepted.
  assert (Hstep : filter_loop (before ++ [token]) = filter_step accepted token).
  { unfold filter_loop. by rewrite foldl_snoc. }
  rewrite Hstep.
  assert (Hgrow : accepted ++ [compound_of token] ≠ accepted).
  { intros Heq. apply (f_equal length) in Heq. rewrite length_app in Heq.
    simpl in Heq. lia. }
  split_and!.
  - split; [apply filter_step_accepts|]. intros Heq.
    destruct (decide (is_candidate accepted token)) as [|Hno]; [done|].
    rewrite (filter_step_rejects _ _ Hno) in Heq. by destruct Hgrow.
  - split; [apply filter_step_rejects|]. intros Heq Hyes.
    rewrite (filter_step_accepts _ _ Hyes) in Heq. by destruct Hgrow.
  - unfold filter_loop. rewrite foldl_app. simpl. apply foldl_filter_step_prefix.
  - apply filter_loop_NoDup.
Qed.

(** ** The ranking stage *)

Lemma key_lt_outranks (x y : Compound) :
  key_lt (sort_key y) (sort_key x) = true ↔ outranks x y.
Proof. unfold outranks. case_keys x y; intuition (done || lia). Qed.

Lemma sort_key_ties (x y : Compound) : sort_key x = sort_key y ↔ ties x y.
Proof.
  unfold ties, is_noun, is_core, sort_key.
  destruct (bool_decide_reflect (c_pos x = "NOUN")),
    (bool_decide_reflect (c_pos y = "NOUN")),
    (bool_decide_reflect (c_dep x ∈ ["nsubj"; "dobj"])),
    (bool_decide_reflect (c_dep y ∈ ["nsubj"; "dobj"]));
    split; intros H; try (injection H as H); try done; try tauto;
    try (destruct H as (? & -> & ?); done || tauto).
Qed.

Lemma key_lt_asym (x y : Compound) :
  key_lt (sort_key x) (sort_key y) = true →
  key_lt (sort_key y) (sort_key x) = false.
Proof. case_keys x y; try done; lia. Qed.

Lemma key_lt_irrefl (a : bool * nat * bool) : key_lt a a = false.
Proof.
  destruct a as [[a1 a2] a3]. unfold key_lt.
  rewrite bool_decide_eq_true_2, Nat.eqb_refl by done. by destruct a3.
Qed.

Lemma key_ge_trans (a b c : bool * nat * bool) :
  key_lt a b = false → key_lt b c = false → key_lt a c = false.
Proof.
  destruct a as [[a1 a2] a3], b as [[b1 b2] b3], c as [[c1 c2] c3].
  unfold key_lt.
  destruct a1, b1, c1, a3, b3, c3; simpl;
    repeat match goal with
           | |- context [?n =? ?m] =>
               destruct (Nat.eqb_spec n m); simpl
           end;
    rewrite ?Nat.ltb_ge, ?Nat.ltb_lt; try done; try lia.
Qed.

Lemma key_ge_outranks_or_ties (x y : Compound) :
  key_lt (sort_key x) (sort_key y) = false → outranks x y ∨ ties x y.
Proof. unfold outranks, ties. case_keys x y; intuition (done || lia). Qed.

Lemma insert_desc_perm (x : Compound) (l : list Compound) :
  insert_desc x l ≡ₚ x :: l.
Proof.
  induction l as [|y l IH]; simpl; [done|].
  destruct (key_lt (sort_key x) (sort_key y)); [|reflexivity].
  rewrite IH. apply Permutation_swap.
Qed.

Lemma sort_reverse_perm (l : list Compound) : sort_reverse l ≡ₚ l.
Proof.
  induction l as [|x l IH]; simpl; [reflexivity|].
  rewrite insert_desc_perm. by rewrite IH.
Qed.

Lemma insert_desc_sorted (x : Compound) (l : list Compound) :
  StronglySorted key_ge l → StronglySorted key_ge (insert_desc x l).
Proof.
  induction 1 as [|y l Hl IH Hy]; simpl.
  - by repeat constructor.
  - destruct (key_lt (sort_key x) (sort_key y)) eqn:Hxy.
    + constructor; [done|]. rewrite insert_desc_perm. constructor; [|done].
      by apply key_lt_asym.
    + constructor; [by constructor|]. constructor; [done|].
      eapply Forall_impl; [exact Hy|]. intros z Hyz.
      unfold key_ge in *. by eapply key_ge_trans.
Qed.

Lemma sort_reverse_sorted (l : list Compound) :
  StronglySorted key_ge (sort_reverse l).
Proof.
  induction l as [|x l IH]; simpl; [constructor|]. by apply insert_desc_sorted.
Qed.

Lemma insert_desc_stable (z x : Compound) (l : list Compound) :
  filter (ties z) (insert_desc x l) = filter (ties z) (x :: l).
Proof.
  induction l as [|y l IH]; simpl; [done|].
  destruct (key_lt (sort_key x) (sort_key y)) eqn:Hxy; [|done].
  rewrite filter_cons, IH, !filter_cons.
  destruct (decide (ties z y)) as [Hy|Hy], (decide (ties z x)) as [Hx|Hx]; try done.
  exfalso. apply sort_key_ties in Hx, Hy.
  rewrite <-Hx, <-Hy, key_lt_irrefl in Hxy. done.
Qed.

Lemma sort_reverse_stable (z : Compound) (l : list Compound) :
  filter (ties z) (sort_reverse l) = filter (ties z) l.
Proof.
  induction l as [|x l IH]; simpl; [done|].
  by rewrite insert_desc_stable, !filter_cons, IH.
Qed.

(** C4. Ranking stage: the sorted candidates are the filtered candidates
    rearranged so that every candidate outranks or ties with each candidate
    after it, where one candidate outranks another by (1) being a noun, then
    (2) having the longer text, then (3) having a subject or direct-object
    role; the candidates that tie with a given one keep their encounter
    order; and 学校 (noun, 2, subject), 跑步 (verb, 2, other), 研究所 (noun, 3,
    other) are ranked 研究所, 学校, 跑步. *)
Theorem ranking_stage (compounds : list Compound) :
  sort_reverse compounds ≡ₚ compounds
  ∧ StronglySorted (λ x y, outranks x y ∨ ties x y) (sort_reverse compounds)
  ∧ (∀ z, filter (ties z) (sort_reverse compounds) = filter (ties z) compounds)
  ∧ c_text <$> sort_reverse ranking_example = [yanjiusuo; xuexiao; paobu].
Proof.
  split_and!.
  - apply sort_reverse_perm.
  - pose proof (sort_reverse_sorted compounds) as Hs.
    induction Hs as [|x l Hl IH Hx]; constructor; [done|].
    eapply Forall_impl; [exact Hx|]. intros y. apply key_ge_outranks_or_ties.
  - intros z. apply sort_reverse_stable.
  - reflexivity.
Qed.

(** ** The sampling stage *)

Lemma swap_out_perm {A} (l : list A) (j : nat) (x y : A) :
  l !! j = Some x → x :: <[j := y]> l ≡ₚ y :: l.
Proof.
  revert j. induction l as [|z l IH]; intros [|j] Hj; simplify_eq/=.
  - apply Permutation_swap.
  - rewrite Permutation_swap, (IH _ Hj). apply Permutation_swap.
Qed.

(** One round of the selection loop: the picked element and the first [m]
    slots that remain are the first [S m] slots before the round. *)
Lemma sample_round_perm {A} (pool : list A) (j m : nat) (picked last : A) :
  j ≤ m → pool !! j = Some picked → pool !! m = Some last →
  picked :: take m (<[j := last]> pool) ≡ₚ take (S m) pool.
Proof.
  intros Hjm Hj Hm. rewrite (take_S_r _ _ _ Hm).
  destruct (decide (j = m)) as [->|Hne].
  - rewrite take_insert_ge by done. simplify_eq. apply Permutation_cons_append.
  - rewrite take_insert_lt by lia.
    rewrite swap_out_perm by (rewrite lookup_take_lt by lia; done).
    apply Permutation_cons_append.
Qed.

Section Sampling.

Variable nlp : str → list Token.
Variable rand : nat → nat.

Lemma sample_loop_spec (rounds i n : nat) (pool : list str) (w : World) :
  length pool = n → rounds + i ≤ n →
  ∃ l w', sample_loop rand rounds i n pool w = (Ok l, w')
          ∧ length l = rounds
          ∧ l ⊆+ take (n - i) pool
          ∧ (rounds + i = n → l ≡ₚ take (n - i) pool)
          ∧ calls w' = calls w ∧ heap w' = heap w.
Proof.
  revert i pool w. induction rounds as [|rounds IH]; intros i pool w Hlen Hle.
  - exists [], w. simpl. unfold_M. split_and!; try done.
    + apply submseteq_nil_l.
    + intros Hi. replace (n - i) with 0 by lia. by rewrite take_0.
  - simpl. unfold_M. unfold randbelow.
    destruct (n - i) as [|m] eqn:Hm; [lia|].
    set (j := rand (draws w) mod S m).
    assert (Hj : j < S m) by (apply Nat.mod_upper_bound; lia).
    destruct (lookup_lt_is_Some_2 pool j ltac:(lia)) as [picked Hpicked].
    destruct (lookup_lt_is_Some_2 pool (S m - 1) ltac:(lia)) as [last Hlast].
    rewrite Hpicked, Hlast.
    set (w1 := {| calls := calls w; draws := S (draws w); heap := heap w |}).
    destruct (IH (S i) (<[j := last]> pool) w1) as (l & w' & Hrun & Hl & Hsub & Hall & Hc & Hh).
    { by rewrite length_insert. }
    { lia. }
    rewrite Hrun. exists (picked :: l), w'.
    replace (n - S i) with m in * by lia.
    replace (S m - 1) with m in * by lia.
    pose proof (sample_round_perm pool j m picked last ltac:(lia) Hpicked Hlast) as Hperm.
    split_and!; try done.
    + simpl. by rewrite Hl.
    + rewrite <-Hperm. by apply submseteq_skip.
    + intros Hi. rewrite <-Hperm. apply Permutation_skip. apply Hall. lia.
Qed.

Lemma random_sample_ok (population : list str) (k : Z) (w : World) :
  (0 ≤ k ≤ Z.of_nat (length population))%Z →
  ∃ l w', random_sample rand population k w = (Ok l, w')
          ∧ Z.of_nat (length l) = k
          ∧ l ⊆+ population
          ∧ (k = Z.of_nat (length population) → l ≡ₚ population)
          ∧ calls w' = calls w ∧ heap w' = heap w.
Proof.
  intros Hk. unfold random_sample. rewrite bool_decide_eq_true_2 by done.
  destruct (sample_loop_spec (Z.to_nat k) 0 (length population) population w)
    as (l & w' & Hrun & Hl & Hsub & Hall & Hc & Hh); [done|lia|].
  rewrite Nat.sub_0_r, firstn_all in *.
  exists l, w'. split_and!; try done; [lia|]. intros ->. apply Hall. lia.
Qed.

Lemma random_sample_raises (population : list str) (k : Z) (w : World) :
  ¬ (0 ≤ k ≤ Z.of_nat (length population))%Z →
  random_sample rand population k w = (Raise ValueError, w).
Proof.
  intros Hk. unfold random_sample. by rewrite bool_decide_eq_false_2 by done.
Qed.

Lemma ranked_morphemes_NoDup (doc : list Token) : NoDup (ranked_morphemes doc).
Proof.
  unfold ranked_morphemes. rewrite sort_reverse_perm. apply filter_loop_NoDup.
Qed.

Lemma submseteq_NoDup {A} (l k : list A) : l ⊆+ k → NoDup k → NoDup l.
Proof.
  intros Hsub Hk. apply submseteq_Permutation in Hsub as [k' Hk'].
  rewrite Hk' in Hk. by apply NoDup_app in Hk as (? & _).
Qed.

Lemma extract_morphemes_unfold (passage : str) (num_morphemes : Z) (w : World) :
  extract_morphemes nlp rand passage num_morphemes w =
  sample_morphemes rand (ranked_morphemes (nlp passage)) num_morphemes
    (record_calls [Nlp passage] w).
Proof. reflexivity. Qed.

End Sampling.

(** C1, as stated, fails.  With the default count 10 and exactly ten
    candidates the pool has at most [maxCount] entries, yet the selector
    samples and returns the pool in another order (here the draws make it
    start with the second candidate); with eleven candidates and
    [maxCount = 11] the pool of ten is again not larger than [maxCount],
    and the selector raises [ValueError]. *)
Lemma sampling_law_counterexample :
  ¬ sampling_law_as_stated (take 10 (ranked_morphemes ten_nouns)) 10
      (extract_morphemes (λ _, ten_nouns) (λ _, 1) [] 10 initial_world).1
  ∧ ¬ sampling_law_as_stated (take 10 (ranked_morphemes eleven_nouns)) 11
      (extract_morphemes (λ _, eleven_nouns) (λ _, 1) [] 11 initial_world).1.
Proof.
  split; intros H; vm_compute in H; discriminate H.
Qed.

(** C1 (amended). When there are fewer ranked candidates than [maxCount],
    the selector returns all of them unchanged, which is the eligible pool
    when there are at most ten; otherwise, for [0 ≤ maxCount ≤ 10], it
    returns exactly [maxCount] distinct elements, all drawn from the pool of
    the first ten ranked candidates, and a rearrangement of the pool when
    the pool has exactly [maxCount] entries.  In both cases it does not
    raise, and it only consumes random draws after the call to [nlp]. *)
Theorem sampling_law (nlp : str → list Token) (rand : nat → nat)
    (passage : str) (maxCount : Z) (w : World) :
  let morphemes := ranked_morphemes (nlp passage) in
  let pool := take 10 morphemes in
  let outcome := (extract_morphemes nlp rand passage maxCount w).1 in
  ((Z.of_nat (length morphemes) < maxCount)%Z →
     outcome = Ok morphemes ∧ (length morphemes ≤ 10 → morphemes = pool))
  ∧ ((0 ≤ maxCount ≤ 10)%Z → (maxCount ≤ Z.of_nat (length morphemes))%Z →
     ∃ l, outcome = Ok l
          ∧ Z.of_nat (length l) = maxCount
          ∧ NoDup l
          ∧ l ⊆ pool
          ∧ (Z.of_nat (length pool) = maxCount → l ≡ₚ pool)).
Proof.
  intros morphemes pool outcome. subst outcome.
  rewrite extract_morphemes_unfold. fold morphemes. unfold sample_morphemes.
  split.
  - intros Hlt. rewrite bool_decide_eq_true_2 by done. split; [done|].
    intros Hlen. unfold pool. by rewrite take_ge.
  - intros Hk Hle. rewrite bool_decide_eq_false_2 by lia. fold pool.
    set (w1 := record_calls _ w).
    assert (Hpool : length pool = min 10 (length morphemes)) by apply length_take.
    destruct (random_sample_ok rand pool maxCount w1)
      as (l & w' & Hrun & Hl & Hsub & Hall & _); [lia|].
    rewrite Hrun. exists l. split_and!; try done.
    + eapply submseteq_NoDup; [exact Hsub|]. unfold pool.
      apply (sublist_NoDup _ morphemes); [apply ranked_morphemes_NoDup|apply sublist_take].
    + intros x Hx. by eapply elem_of_submseteq.
    + intros Heq. apply Hall. lia.
Qed.

(** The amended law at two candidates and [maxCount = 2]. *)
Lemma sampling_law_witness :
  ∃ l, (extract_morphemes (λ _, two_nouns) (λ _, 1) [] 2 initial_world).1 = Ok l
       ∧ Z.of_nat (length l) = 2%Z
       ∧ NoDup l
       ∧ l ⊆ take 10 (ranked_morphemes two_nouns)
       ∧ (Z.of_nat (length (take 10 (ranked_morphemes two_nouns))) = 2%Z →
          l ≡ₚ take 10 (ranked_morphemes two_nouns)).
Proof.
  apply (proj2 (sampling_law (λ _, two_nouns) (λ _, 1) [] 2 initial_world)).
  - lia.
  - vm_compute. discriminate.
Defined.

(** ** [str.replace] and [str.count] *)

Lemma startswith_spec (old s : str) :
  startswith old s = true ↔ ∃ k, s = old ++ k.
Proof.
  revert s. induction old as [|a old IH]; intros s; simpl.
  - split; [by exists s|done].
  - destruct s as [|c s].
    + split; [done|]. by intros (k & ?).
    + rewrite andb_true_iff, N.eqb_eq, IH. split.
      * intros (-> & k & ->). by exists k.
      * intros (k & Hk). simplify_eq. eauto.
Qed.

Lemma startswith_app (old k : str) : startswith old (old ++ k) = true.
Proof. apply startswith_spec. by exists k. Qed.

Lemma replace_scan_fuel (old new s : str) (fuel1 fuel2 : nat) :
  old ≠ [] → length s ≤ fuel1 → length s ≤ fuel2 →
  replace_scan fuel1 old new s = replace_scan fuel2 old new s.
Proof.
  intros Hold. revert s fuel2.
  induction fuel1 as [|fuel1 IH]; intros s fuel2 H1 H2.
  - destruct s; [|simpl in H1; lia]. by destruct fuel2.
  - destruct s as [|c s]; [by destruct fuel2|].
    destruct fuel2 as [|fuel2]; [simpl in H2; lia|].
    simpl in H1, H2. cbn [replace_scan].
    destruct (startswith old (c :: s)).
    + f_equal. destruct old as [|a old]; [done|].
      apply IH; simpl; rewrite length_drop; lia.
    + f_equal. apply IH; lia.
Qed.

Lemma count_scan_fuel (old s : str) (fuel1 fuel2 : nat) :
  old ≠ [] → length s ≤ fuel1 → length s ≤ fuel2 →
  count_scan fuel1 old s = count_scan fuel2 old s.
Proof.
  intros Hold. revert s fuel2.
  induction fuel1 as [|fuel1 IH]; intros s fuel2 H1 H2.
  - destruct s; [|simpl in H1; lia]. by destruct fuel2.
  - destruct s as [|c s]; [by destruct fuel2|].
    destruct fuel2 as [|fuel2]; [simpl in H2; lia|].
    simpl in H1, H2. cbn [count_scan].
    destruct (startswith old (c :: s)).
    + f_equal. destruct old as [|a old]; [done|].
      apply IH; simpl; rewrite length_drop; lia.
    + apply IH; lia.
Qed.

(** The equations of [replace] and [count] for a non-empty [old]. *)
Lemma replace_nil (old new : str) : old ≠ [] → replace old new [] = [].
Proof. by destruct old. Qed.

Lemma replace_match (old new k : str) :
  old ≠ [] → replace old new (old ++ k) = new ++ replace old new k.
Proof.
  intros Hold. destruct old as [|a old]; [done|].
  unfold replace. simpl.
  rewrite N.eqb_refl, startswith_app, drop_app_length. simpl. f_equal.
  apply replace_scan_fuel; [done| |done]. rewrite length_app. lia.
Qed.

Lemma replace_skip (old new : str) (c : N) (s : str) :
  old ≠ [] → startswith old (c :: s) = false →
  replace old new (c :: s) = c :: replace old new s.
Proof.
  intros Hold Hno. destruct old as [|a old]; [done|].
  unfold replace. cbn [length replace_scan]. by rewrite Hno.
Qed.

Lemma count_nil (old : str) : old ≠ [] → count old [] = 0.
Proof. by destruct old. Qed.

Lemma count_match (old k : str) :
  old ≠ [] → count old (old ++ k) = S (count old k).
Proof.
  intros Hold. destruct old as [|a old]; [done|].
  unfold count. simpl.
  rewrite N.eqb_refl, startswith_app, drop_app_length. simpl. f_equal.
  apply count_scan_fuel; [done| |done]. rewrite length_app. lia.
Qed.

Lemma count_skip (old : str) (c : N) (s : str) :
  old ≠ [] → startswith old (c :: s) = false →
  count old (c :: s) = count old s.
Proof.
  intros Hold Hno. destruct old as [|a old]; [done|].
  unfold count. cbn [length count_scan]. by rewrite Hno.
Qed.

(** Case analysis on the first step of the scan, for an induction on the
    length of the string. *)
Lemma scan_cases (old s : str) :
  s = []
  ∨ (∃ k, s = old ++ k ∧ startswith old s = true)
  ∨ (∃ c s', s = c :: s' ∧ startswith old s = false).
Proof.
  destruct s as [|c s']; [by left|]. right.
  destruct (startswith old (c :: s')) eqn:Hsw.
  - left. apply startswith_spec in Hsw as [k Hk]. eauto.
  - right. eauto.
Qed.

Lemma str_length_ind (P : str → Prop) :
  (∀ s, (∀ t, length t < length s → P t) → P s) → ∀ s, P s.
Proof.
  intros Hstep s. remember (length s) as n eqn:Hn. revert s Hn.
  induction n as [n IH] using lt_wf_ind. intros s ->.
  apply Hstep. intros t Ht. by apply (IH (length t)).
Qed.

(** The first occurrence of a code point splits a string in one way. *)
Lemma first_split_length (c : N) (l1 r1 l2 r2 : str) :
  l1 ++ c :: r1 = l2 ++ c :: r2 → c ∉ l1 → c ∉ l2 → length l1 = length l2.
Proof.
  revert l2. induction l1 as [|x l1 IH]; intros l2 Heq H1 H2.
  - destruct l2 as [|y l2]; [done|]. simplify_eq/=.
    exfalso. apply H2. by left.
  - destruct l2 as [|y l2]; simplify_eq/=.
    + exfalso. apply H1. by left.
    + f_equal. eapply IH; [done| |].
      * intros Hc. apply H1. by right.
      * intros Hc. apply H2. by right.
Qed.

(** In the result of a replacement by [pre ++ c :: post], for a code point
    [c] that the string does not hold, the first [c] comes with the whole
    of [pre] in front of it. *)
Lemma first_marker (old pre post s a b : str) (c : N) :
  old ≠ [] → c ∉ pre → c ∉ s →
  replace old (pre ++ c :: post) s = a ++ c :: b → c ∉ a →
  length pre ≤ length a.
Proof.
  intros Hold Hpre. revert a.
  induction s as [s IH] using str_length_ind. intros a Hs Heq Ha.
  destruct (scan_cases old s) as [->|[(k & -> & _)|(x & s' & -> & Hno)]].
  - rewrite replace_nil in Heq by done. by destruct a.
  - rewrite replace_match, <-app_assoc in Heq by done. simpl in Heq.
    by rewrite (first_split_length c pre _ a b Heq).
  - rewrite replace_skip in Heq by done.
    destruct a as [|y a]; simplify_eq/=.
    + exfalso. apply Hs. by left.
    + etrans; [apply (IH s' ltac:(simpl; lia) a)|lia]; try done.
      * intros Hc. apply Hs. by right.
      * intros Hc. apply Ha. by right.
Qed.

(** When the string lacks a code point [c] of [new], taken at its first
    position in [new], every match becomes one occurrence of [new] and the
    count finds no other. *)
Lemma count_replace_marker (old pre post s : str) (c : N) :
  old ≠ [] → c ∉ pre → c ∉ s →
  count (pre ++ c :: post) (replace old (pre ++ c :: post) s) = count old s.
Proof.
  intros Hold Hpre. set (new := pre ++ c :: post).
  assert (Hnew : new ≠ []) by (subst new; by destruct pre).
  induction s as [s IH] using str_length_ind. intros Hs.
  destruct (scan_cases old s) as [->|[(k & -> & _)|(x & s' & -> & Hno)]].
  - by rewrite replace_nil, !count_nil.
  - rewrite replace_match, !count_match by done. f_equal. apply IH.
    + rewrite length_app. destruct old; [done|simpl; lia].
    + intros Hk. apply Hs, elem_of_app. by right.
  - assert (Hs' : c ∉ s') by (intros Hc; apply Hs; by right).
    rewrite replace_skip, (count_skip old) by done.
    rewrite count_skip; [by apply IH; [simpl; lia|]|done|].
    destruct (startswith new (x :: replace old new s')) eqn:Hsw; [|done].
    exfalso. apply startswith_spec in Hsw as (k & Hk).
    subst new. rewrite <-app_assoc in Hk. simpl in Hk.
    destruct pre as [|y pre']; simpl in Hk; injection Hk as Hx Hk.
    + apply Hs. rewrite Hx. by left.
    + assert (Hpre' : c ∉ pre') by (intros Hc; apply Hpre; by right).
      pose proof (first_marker old (y :: pre') post s' pre' (post ++ k) c
                    Hold Hpre Hs' Hk Hpre') as Hlen.
      simpl in Hlen. lia.
Qed.

(** Every match becomes one occurrence of [new], and the count finds no
    other, as soon as one code point of [new] is not in the string. *)
Lemma count_replace (old new s : str) (c : N) :
  old ≠ [] → c ∈ new → c ∉ s →
  count new (replace old new s) = count old s.
Proof.
  intros Hold Hc Hs.
  apply list_elem_of_split_l in Hc as (pre & post & -> & Hpre).
  by apply count_replace_marker.
Qed.

(** An occurrence of [old] in [new ++ r] lies in [r] when the two share no
    code point. *)
Lemma occurs_after_disjoint (old new r : str) :
  old ≠ [] → (∀ x, x ∈ old → x ∉ new) →
  occurs old (new ++ r) → occurs old r.
Proof.
  intros Hold Hdisj. induction new as [|n new IH]; [done|].
  intros (a & b & Heq). apply IH.
  - intros x Hx Hn. apply (Hdisj x Hx). by right.
  - destruct a as [|a0 a].
    + destruct old as [|o old]; [done|]. simplify_eq/=.
      exfalso. eapply Hdisj; left.
    + simplify_eq/=. by exists a, b.
Qed.

(** A prefix of the result that avoids the code points of [new] is a prefix
    of the original string. *)
Lemma prefix_of_replace (old new u t : str) :
  old ≠ [] → new ≠ [] → (∀ x, x ∈ u → x ∉ new) →
  (∃ k, replace old new t = u ++ k) → ∃ k, t = u ++ k.
Proof.
  intros Hold Hnew. revert t. induction u as [|x u IH]; intros t Hu (k & Hk).
  - by exists t.
  - destruct (scan_cases old t) as [->|[(k' & -> & _)|(c & t' & -> & Hno)]].
    + by rewrite replace_nil in Hk.
    + rewrite replace_match in Hk by done.
      destruct new as [|n new]; [done|]. simplify_eq/=.
      exfalso. eapply Hu; left.
    + rewrite replace_skip in Hk by done. simplify_eq/=.
      destruct (IH t') as (k' & ->).
      * intros y Hy. apply Hu. by right.
      * by exists k.
      * by exists k'.
Qed.

(** After the replacement nothing of [old] is left, when [old] and [new]
    share no code point. *)
Lemma replace_clears_disjoint (old new s : str) :
  old ≠ [] → new ≠ [] → (∀ x, x ∈ old → x ∉ new) →
  ¬ occurs old (replace old new s).
Proof.
  intros Hold Hnew Hdisj.
  induction s as [s IH] using str_length_ind.
  destruct (scan_cases old s) as [->|[(k & -> & _)|(c & s' & -> & Hno)]].
  - rewrite replace_nil by done. intros (a & b & Heq).
    destruct a, old; simplify_eq/=.
  - rewrite replace_match by done. intros Hocc.
    apply occurs_after_disjoint in Hocc; [|done..]. revert Hocc. apply IH.
    rewrite length_app. destruct old; [done|simpl; lia].
  - rewrite replace_skip by done. intros (a & b & Heq).
    destruct a as [|a0 a].
    + destruct old as [|o old]; [done|]. simplify_eq/=.
      destruct (prefix_of_replace (o :: old) new old s') as (k & ->); try done.
      { intros y Hy. apply Hdisj. by right. }
      { by exists b. }
      by rewrite N.eqb_refl, startswith_app in Hno.
    + simplify_eq/=. apply (IH s'); [simpl; lia|]. by exists a, b.
Qed.


(** ** [create_quiz] *)

Lemma record_calls_nil (w : World) : record_calls [] w = w.
Proof. destruct w. unfold record_calls. simpl. by rewrite app_nil_r. Qed.

Lemma record_calls_app (cs cs' : list Call) (w : World) :
  record_calls cs' (record_calls cs w) = record_calls (cs ++ cs') w.
Proof. unfold record_calls. simpl. by rewrite app_assoc. Qed.

Section Quiz.

Variable model : str → option str.
Variable nlp : str → list Token.
Variable rand : nat → nat.

Lemma generate_alternatives_run (morpheme : str) (w : World) :
  generate_alternatives model morpheme w =
  (Ok (alternatives_for model morpheme),
   record_calls [GenerateContent (alternatives_prompt morpheme)] w).
Proof. reflexivity. Qed.

Lemma generate_chinese_response_run (prompt : str) (w : World) :
  generate_chinese_response model prompt w =
  (Ok (response_text (model (response_prompt prompt))),
   record_calls [GenerateContent (response_prompt prompt)] w).
Proof. reflexivity. Qed.

(** The loop of [create_quiz] never fails: it asks for the alternatives of
    every morpheme, appends an item for each morpheme that has some, and
    masks every morpheme under its index. *)
Lemma quiz_loop_run (target_morphemes : list str) (i : nat)
    (quiz_items : list QuizItem) (masked_text : str) (w : World) :
  quiz_loop model i target_morphemes quiz_items masked_text w =
  (Ok (quiz_items ++ (item_for model <$> answerable model target_morphemes),
       foldl mask_step masked_text (enumerate_from i target_morphemes)),
   record_calls (distractor_calls target_morphemes) w).
Proof.
  revert i quiz_items masked_text w.
  induction target_morphemes as [|morpheme rest IH];
    intros i quiz_items masked_text w.
  - simpl. unfold_M. by rewrite app_nil_r, record_calls_nil.
  - cbn [quiz_loop]. unfold mbind, M_bind, bind.
    rewrite generate_alternatives_run, IH, record_calls_app.
    unfold answerable. rewrite filter_cons. fold (answerable model rest).
    unfold enumerate_from, mask_step, item_for. simpl.
    destruct (alternatives_for model morpheme) as [|alt alts] eqn:Halts.
    + rewrite decide_False by (by intros []). done.
    + rewrite decide_True by done. rewrite fmap_cons, Halts.
      by rewrite <-app_assoc.
Qed.

(** [extract_morphemes] with the default count never raises. *)
Lemma extract_morphemes_default (passage : str) (w : World) :
  ∃ target_morphemes w',
    extract_morphemes nlp rand passage 10 w = (Ok target_morphemes, w')
    ∧ calls w' = calls w ++ [Nlp passage]
    ∧ heap w' = heap w
    ∧ NoDup target_morphemes
    ∧ target_morphemes ⊆ take 10 (ranked_morphemes (nlp passage))
    ∧ (target_morphemes = [] ↔ ranked_morphemes (nlp passage) = []).
Proof.
  rewrite extract_morphemes_unfold. unfold sample_morphemes.
  set (morphemes := ranked_morphemes (nlp passage)).
  pose proof (ranked_morphemes_NoDup (nlp passage)) as Hnd. fold morphemes in Hnd.
  case_bool_decide as Hlen.
  - exists morphemes, (record_calls [Nlp passage] w). unfold_M.
    split_and!; try done. rewrite take_ge by lia. done.
  - assert (Hpool : length (take 10 morphemes) = 10) by (rewrite length_take; lia).
    destruct (random_sample_ok rand (take 10 morphemes) 10 (record_calls [Nlp passage] w))
      as (l & w' & Hrun & Hl & Hsub & _ & Hc & Hh); [lia|].
    exists l, w'. split_and!; try done.
    + eapply submseteq_NoDup; [exact Hsub|].
      apply (sublist_NoDup _ morphemes); [done|apply sublist_take].
    + intros x Hx. by eapply elem_of_submseteq.
    + split; intros ->; [simpl in Hl; lia|simpl in Hlen; lia].
Qed.

(** A run of [create_quiz] whose passage is not empty. *)
Lemma create_quiz_run (prompt : str) (w : World) :
  let response := response_text (model (response_prompt prompt)) in
  response ≠ [] →
  ∃ target_morphemes w1 w',
    extract_morphemes nlp rand response 10
      (record_calls [GenerateContent (response_prompt prompt)] w)
    = (Ok target_morphemes, w1)
    ∧ create_quiz model nlp rand prompt w
      = (Ok (response,
             item_for model <$> answerable model target_morphemes,
             mask_all target_morphemes response), w')
    ∧ calls w' = calls w
                 ++ [GenerateContent (response_prompt prompt); Nlp response]
                 ++ distractor_calls target_morphemes
    ∧ NoDup target_morphemes
    ∧ target_morphemes ⊆ take 10 (ranked_morphemes (nlp response)).
Proof.
  intros response Hne.
  destruct (extract_morphemes_default response
              (record_calls [GenerateContent (response_prompt prompt)] w))
    as (ms & w1 & Hext & Hc & _ & Hnd & Hsub & _).
  exists ms, w1, (record_calls (distractor_calls ms) w1).
  split_and!; try done.
  - unfold create_quiz, mbind, M_bind, bind.
    rewrite generate_chinese_response_run. fold response.
    destruct response as [|c response'] eqn:Hresp; [done|].
    rewrite Hext, quiz_loop_run. done.
  - simpl. rewrite Hc. simpl. by rewrite <-!app_assoc.
Qed.

End Quiz.

(** ** The claims about [create_quiz] *)

Lemma split_nonempty (sep : N) (s : str) : split sep s ≠ [].
Proof.
  induction s as [|c s IH]; simpl; [done|].
  destruct (c =? sep)%N; [done|]. by destruct (split sep s).
Qed.

Lemma parse_alternatives_length (response : option str) :
  length (parse_alternatives response) ≤ 3.
Proof.
  destruct response as [answer|]; simpl; [|lia].
  rewrite length_fmap, length_take. lia.
Qed.

Lemma parse_alternatives_nil (response : option str) :
  parse_alternatives response = [] ↔ response = None.
Proof.
  split; [|by intros ->]. destruct response as [answer|]; [|done]. simpl.
  pose proof (split_nonempty 124 (strip answer)) as Hne.
  by destruct (split 124 (strip answer)).
Qed.

Lemma enumerate_from_snoc (i : nat) (processed : list str) (m : str) :
  enumerate_from i (processed ++ [m])
  = enumerate_from i processed ++ [(i + length processed, m)].
Proof.
  unfold enumerate_from. rewrite length_app. simpl.
  rewrite seq_app. simpl. rewrite zip_with_app by (by rewrite length_seq). done.
Qed.

Lemma mask_all_snoc (processed : list str) (m passage : str) :
  mask_all (processed ++ [m]) passage
  = replace m (placeholder (length processed)) (mask_all processed passage).
Proof. unfold mask_all. by rewrite enumerate_from_snoc, foldl_snoc. Qed.

Section QuizClaims.

Variable model : str → option str.
Variable nlp : str → list Token.
Variable rand : nat → nat.

Lemma create_quiz_empty (prompt : str) (w : World) :
  response_text (model (response_prompt prompt)) = [] →
  create_quiz model nlp rand prompt w
  = (Ok ([], [], []), record_calls [GenerateContent (response_prompt prompt)] w).
Proof.
  intros Hempty. unfold create_quiz, mbind, M_bind, bind.
  by rewrite generate_chinese_response_run, Hempty.
Qed.

Lemma create_quiz_items (prompt : str) (w w' : World)
    (passage masked_text : str) (quiz_items : list QuizItem) :
  create_quiz model nlp rand prompt w = (Ok (passage, quiz_items, masked_text), w') →
  ∃ target_morphemes,
    quiz_items = item_for model <$> answerable model target_morphemes
    ∧ target_morphemes ⊆ take 10 (ranked_morphemes (nlp passage)).
Proof.
  intros Hrun.
  destruct (decide (response_text (model (response_prompt prompt)) = [])) as [He|Hne].
  - rewrite (create_quiz_empty _ _ He) in Hrun. simplify_eq.
    exists []. split; [done|]. apply list_subseteq_nil.
  - destruct (create_quiz_run model nlp rand prompt w Hne)
      as (ms & w1 & w2 & _ & Hquiz & _ & _ & Hsub).
    rewrite Hquiz in Hrun. simplify_eq. by exists ms.
Qed.

End QuizClaims.

(** C2: the quiz invariant is broken by the code.  For the passage 学校研究所
    the morphemes are processed in the order 研究所, 学校; the distractor
    call for 研究所 raises, so the only quiz item, of index 0, is the one of
    学校, while the passage is masked with label 0 for 研究所 and label 1
    for 学校. *)
Theorem quiz_invariant_broken :
  (extract_morphemes school_nlp no_draws school_passage 10 initial_world).1
  = Ok [yanjiusuo; xuexiao]
  ∧ (create_quiz school_model school_nlp no_draws topic initial_world).1
    = Ok (school_passage,
          [{| original_morpheme := xuexiao; alternatives := school_alternatives |}],
          placeholder 1 ++ placeholder 0)
  ∧ ¬ masked_only_with_item [yanjiusuo; xuexiao]
        [{| original_morpheme := xuexiao; alternatives := school_alternatives |}].
Proof.
  split_and!; [by vm_compute..|].
  intros Hinv. destruct (Hinv 0 yanjiusuo eq_refl) as (item & Hitem & Horig).
  simpl in Hitem. simplify_eq.
Qed.




(** C6, as stated, fails: in the run on 学校研究所 the distractor call for
    研究所 raises, and no quiz item with an empty list of alternatives is
    produced for it. *)
Lemma failure_recovery_counterexample :
  ∃ quiz_items masked_text,
    (extract_morphemes school_nlp no_draws school_passage 10 initial_world).1
    = Ok [yanjiusuo; xuexiao]
    ∧ (create_quiz school_model school_nlp no_draws topic initial_world).1
      = Ok (school_passage, quiz_items, masked_text)
    ∧ ¬ failure_keeps_empty_item school_model [yanjiusuo; xuexiao] quiz_items.
Proof.
  exists [{| original_morpheme := xuexiao; alternatives := school_alternatives |}],
         (placeholder 1 ++ placeholder 0).
  split_and!; [by vm_compute..|].
  intros Hkeep. specialize (Hkeep yanjiusuo).
  apply list_elem_of_singleton in Hkeep; [discriminate Hkeep|by left|by vm_compute].
Qed.

(** C6 (amended). When the passage is not empty the pipeline does not
    abort: for the morphemes [extract_morphemes] selects, it calls the
    distractor oracle for every one of them, in order, whether or not an
    earlier call raised, and returns the passage with every selected
    morpheme masked under its index.  A morpheme whose distractor call
    raises gets no quiz item, every other selected morpheme gets one, and
    every quiz item carries between one and three alternatives. *)
Theorem distractor_failure_recovery (model : str → option str)
    (nlp : str → list Token) (rand : nat → nat) (prompt : str) (w : World) :
  let response := response_text (model (response_prompt prompt)) in
  response ≠ [] →
  ∃ target_morphemes quiz_items masked_text w',
    (extract_morphemes nlp rand response 10
       (record_calls [GenerateContent (response_prompt prompt)] w)).1
    = Ok target_morphemes
    ∧ create_quiz model nlp rand prompt w
      = (Ok (response, quiz_items, masked_text), w')
    ∧ calls w' = calls w
                 ++ [GenerateContent (response_prompt prompt); Nlp response]
                 ++ distractor_calls target_morphemes
    ∧ masked_text = mask_all target_morphemes response
    ∧ quiz_items = item_for model <$> answerable model target_morphemes
    ∧ (∀ m, m ∈ target_morphemes → model (alternatives_prompt m) = None →
            ∀ item, item ∈ quiz_items → original_morpheme item ≠ m)
    ∧ (∀ m, m ∈ target_morphemes → model (alternatives_prompt m) ≠ None →
            item_for model m ∈ quiz_items)
    ∧ (∀ item, item ∈ quiz_items → 1 ≤ length (alternatives item) ≤ 3).
Proof.
  intros response Hne.
  destruct (create_quiz_run model nlp rand prompt w Hne)
    as (ms & w1 & w' & Hext & Hquiz & Hcalls & _).
  exists ms, (item_for model <$> answerable model ms), (mask_all ms response), w'.
  split_and!; try done.
  - fold response in Hext. by rewrite Hext.
  - intros m _ Hfail item Hitem Heq.
    apply list_elem_of_fmap in Hitem as (m' & -> & Hm').
    simpl in Heq. subst m'.
    apply list_elem_of_filter in Hm' as [Halts _]. apply Halts.
    by apply parse_alternatives_nil.
  - intros m Hm Hsome. apply list_elem_of_fmap_2. apply list_elem_of_filter.
    split; [|done]. intros Hnil. by apply parse_alternatives_nil in Hnil.
  - intros item Hitem.
    apply list_elem_of_fmap in Hitem as (m & -> & Hm).
    apply list_elem_of_filter in Hm as [Halts _]. simpl.
    pose proof (parse_alternatives_length (model (alternatives_prompt m))).
    unfold alternatives_for in *.
    destruct (parse_alternatives (model (alternatives_prompt m))); [done|].
    simpl in *. lia.
Qed.

(** The amended recovery for the run on 学校研究所: the distractor call for
    研究所, the first of the two selected morphemes, raises; the call for
    学校 is still made, 学校 gets the only quiz item, and both morphemes are
    masked. *)
Lemma distractor_failure_recovery_witness :
  school_model (alternatives_prompt yanjiusuo) = None
  ∧ ∃ w',
      (extract_morphemes school_nlp no_draws school_passage 10
         (record_calls [GenerateContent (response_prompt topic)] initial_world)).1
      = Ok [yanjiusuo; xuexiao]
      ∧ create_quiz school_model school_nlp no_draws topic initial_world
        = (Ok (school_passage,
               [{| original_morpheme := xuexiao;
                   alternatives := school_alternatives |}],
               placeholder 1 ++ placeholder 0), w')
      ∧ calls w' = [GenerateContent (response_prompt topic); Nlp school_passage;
                    GenerateContent (alternatives_prompt yanjiusuo);
                    GenerateContent (alternatives_prompt xuexiao)].
Proof.
  split; [vm_compute; reflexivity|].
  destruct (distractor_failure_recovery school_model school_nlp no_draws topic
              initial_world)
    as (ms & items & masked & w' & Hext & Hrun & Hcalls & Hmasked & Hitems & _).
  - vm_compute. discriminate.
  - assert (Hms : ms = [yanjiusuo; xuexiao]).
    { vm_compute in Hext. by injection Hext as <-. }
    subst ms items masked. exists w'. split_and!.
    + vm_compute. reflexivity.
    + rewrite Hrun. reflexivity.
    + rewrite Hcalls. vm_compute. reflexivity.
Defined.

(** C7, as stated, fails: when the model answers 茶道|茶叶|茶杯 for 茶道, the
    quiz item of 茶道 has 茶道 among its alternatives. *)
Lemma quiz_item_invariant_counterexample :
  ∃ passage quiz_items masked_text,
    (create_quiz echo_model tea_nlp no_draws topic initial_world).1
    = Ok (passage, quiz_items, masked_text)
    ∧ ¬ alternatives_exclude_original quiz_items.
Proof.
  eexists _, _, _. split; [by vm_compute|].
  intros Hexcl. eapply Hexcl; [by left|]. by left.
Qed.

(** C7 (amended). The alternatives of every quiz item are what
    [generate_alternatives] made of the model's answer for the original
    morpheme, one of the first ten ranked candidates of the passage; so
    whenever the model's answer for each such candidate does not list the
    candidate itself among its first three fields, no quiz item has its
    original morpheme among its alternatives. *)
Theorem quiz_item_alternatives (model : str → option str)
    (nlp : str → list Token) (rand : nat → nat) (prompt : str) (w w' : World)
    (passage masked_text : str) (quiz_items : list QuizItem) :
  create_quiz model nlp rand prompt w
  = (Ok (passage, quiz_items, masked_text), w') →
  (∀ item, item ∈ quiz_items →
     alternatives item = alternatives_for model (original_morpheme item)
     ∧ original_morpheme item ∈ take 10 (ranked_morphemes (nlp passage)))
  ∧ ((∀ m, m ∈ take 10 (ranked_morphemes (nlp passage)) →
           m ∉ alternatives_for model m) →
     alternatives_exclude_original quiz_items).
Proof.
  intros Hrun.
  destruct (create_quiz_items model nlp rand prompt w w' passage masked_text
              quiz_items Hrun) as (ms & -> & Hsub).
  assert (Hitems : ∀ item, item ∈ item_for model <$> answerable model ms →
            alternatives item = alternatives_for model (original_morpheme item)
            ∧ original_morpheme item ∈ take 10 (ranked_morphemes (nlp passage))).
  { intros item Hitem. apply list_elem_of_fmap in Hitem as (m & -> & Hm).
    apply list_elem_of_filter in Hm as [_ Hm]. split; [done|]. by apply Hsub. }
  split; [done|].
  intros Hmodel item Hitem. destruct (Hitems item Hitem) as [-> Hin].
  by apply Hmodel.
Qed.

(** The amended invariant for the tea scenario. *)
Lemma quiz_item_alternatives_witness :
  alternatives_exclude_original
    [{| original_morpheme := chadao;
        alternatives := [[33590; 33402]; [33590; 21494]; [33590; 26479]]%N |}].
Proof.
  apply (quiz_item_alternatives tea_model tea_nlp no_draws topic initial_world
           (create_quiz tea_model tea_nlp no_draws topic initial_world).2
           tea_passage (mask_all [chadao] tea_passage)).
  - vm_compute. reflexivity.
  - assert (Hpool : take 10 (ranked_morphemes (tea_nlp tea_passage)) = [chadao])
      by (vm_compute; reflexivity).
    rewrite Hpool. intros m Hm. apply list_elem_of_singleton in Hm. subst m.
    refine (bool_decide_unpack _ _). vm_compute. exact I.
Defined.

(** C8. Empty-quiz sentinel: when the passage call raises, or answers
    nothing but whitespace, [create_quiz] returns the triple of the empty
    passage, no quiz item and the empty masked passage, and the passage call
    is the only call made. *)
Theorem empty_quiz_sentinel (model : str → option str) (nlp : str → list Token)
    (rand : nat → nat) (prompt : str) (w : World) :
  (model (response_prompt prompt) = None
   ∨ ∃ answer, model (response_prompt prompt) = Some answer ∧ strip answer = []) →
  create_quiz model nlp rand prompt w
  = (Ok ([], [], []), record_calls [GenerateContent (response_prompt prompt)] w).
Proof.
  intros Hfail. apply create_quiz_empty.
  destruct Hfail as [->|(answer & -> & Hblank)]; done.
Qed.

(** The sentinel for a model that raises and for one that answers blanks. *)
Lemma empty_quiz_sentinel_witness :
  create_quiz failing_model tea_nlp no_draws topic initial_world
  = (Ok ([], [], []),
     record_calls [GenerateContent (response_prompt topic)] initial_world)
  ∧ create_quiz blank_model tea_nlp no_draws topic initial_world
    = (Ok ([], [], []),
       record_calls [GenerateContent (response_prompt topic)] initial_world).
Proof.
  split.
  - apply empty_quiz_sentinel. left. reflexivity.
  - apply empty_quiz_sentinel. right. exists (lit "  "). split; reflexivity.
Defined.

(** C10. When the passage is not empty and the selection yields no
    morpheme, [create_quiz] returns the passage, no quiz item and the
    passage itself as masked passage; the only calls made are the passage
    call and the annotation of the passage. *)
Theorem empty_selection (model : str → option str) (nlp : str → list Token)
    (rand : nat → nat) (prompt : str) (w : World) :
  let response := response_text (model (response_prompt prompt)) in
  response ≠ [] →
  (extract_morphemes nlp rand response 10
     (record_calls [GenerateContent (response_prompt prompt)] w)).1 = Ok [] →
  ∃ w', create_quiz model nlp rand prompt w = (Ok (response, [], response), w')
        ∧ calls w' = calls w
                     ++ [GenerateContent (response_prompt prompt); Nlp response].
Proof.
  intros response Hne Hnone.
  destruct (create_quiz_run model nlp rand prompt w Hne)
    as (ms & w1 & w' & Hext & Hquiz & Hcalls & _).
  fold response in Hext. rewrite Hext in Hnone. simpl in Hnone. simplify_eq.
  exists w'. split; [done|]. by rewrite Hcalls.
Qed.

(** The empty selection for a passage without candidates. *)
Lemma empty_selection_witness :
  ∃ w', create_quiz plain_model no_nlp no_draws topic initial_world
        = (Ok (tea_passage, [], tea_passage), w')
        ∧ calls w' = [GenerateContent (response_prompt topic); Nlp tea_passage].
Proof.
  apply (empty_selection plain_model no_nlp no_draws topic initial_world).
  - vm_compute. discriminate.
  - vm_compute. reflexivity.
Defined.

(** ** The answer shuffler *)

Lemma swap_perm {A} (l : list A) (i j : nat) (xi xj : A) :
  l !! i = Some xi → l !! j = Some xj →
  <[j := xi]> (<[i := xj]> l) ≡ₚ l.
Proof.
  intros Hi Hj. destruct (decide (i = j)) as [->|Hne].
  - simplify_eq. rewrite !(list_insert_id l j xi Hi). reflexivity.
  - apply (Permutation_cons_inv (a := xj)).
    rewrite swap_out_perm by (by rewrite list_lookup_insert_ne).
    by rewrite swap_out_perm.
Qed.

Section Shuffler.

Variable rand : nat → nat.

Lemma swap_run (x i j : nat) (l : list str) (w : World) :
  heap w !! x = Some l → i < length l → j < length l →
  ∃ l' w', swap x i j w = (Ok (), w')
           ∧ heap w' = <[x := l']> (heap w)
           ∧ l' ≡ₚ l
           ∧ calls w' = calls w.
Proof.
  intros Hx Hi Hj. unfold swap, read, write. unfold_M.
  rewrite (lookup_total_correct _ _ _ Hx).
  destruct (lookup_lt_is_Some_2 l i Hi) as [xi Hxi].
  destruct (lookup_lt_is_Some_2 l j Hj) as [xj Hxj].
  rewrite Hxi, Hxj. eexists _, _. split; [done|]. simpl.
  split_and!; try done. by eapply swap_perm.
Qed.

Lemma randbelow_run (n : nat) (w : World) :
  ∃ j w', randbelow rand (S n) w = (Ok j, w')
          ∧ j < S n ∧ heap w' = heap w ∧ calls w' = calls w.
Proof.
  exists (rand (draws w) mod S n),
         {| calls := calls w; draws := S (draws w); heap := heap w |}.
  split_and!; try done. apply Nat.mod_upper_bound. lia.
Qed.

Lemma shuffle_loop_run (i x : nat) (l : list str) (w : World) :
  heap w !! x = Some l → i < length l ∨ i = 0 →
  ∃ l' w', shuffle_loop rand i x w = (Ok (), w')
           ∧ heap w' = <[x := l']> (heap w)
           ∧ l' ≡ₚ l
           ∧ calls w' = calls w.
Proof.
  revert l w. induction i as [|i IH]; intros l w Hx Hi.
  - exists l, w. simpl. unfold_M. split_and!; try done. by rewrite insert_id.
  - destruct Hi as [Hi|]; [|done]. cbn [shuffle_loop]. unfold mbind, M_bind, bind.
    destruct (randbelow_run (S i) w) as (j & w0 & -> & Hj & Hh0 & Hc0).
    destruct (swap_run x (S i) j l w0) as (l1 & w1 & -> & Hh1 & Hp1 & Hc1);
      [by rewrite Hh0|done|lia|].
    destruct (IH l1 w1) as (l2 & w2 & -> & Hh2 & Hp2 & Hc2).
    { rewrite Hh1. apply lookup_insert_eq. }
    { left. rewrite Hp1. lia. }
    exists l2, w2. split_and!; try done.
    + by rewrite Hh2, Hh1, insert_insert_eq, Hh0.
    + by rewrite Hp2.
    + by rewrite Hc2, Hc1.
Qed.

Lemma shuffle_run (x : nat) (l : list str) (w : World) :
  heap w !! x = Some l →
  ∃ l' w', shuffle rand x w = (Ok (), w')
           ∧ heap w' = <[x := l']> (heap w)
           ∧ l' ≡ₚ l
           ∧ calls w' = calls w.
Proof.
  intros Hx. unfold shuffle, read. unfold mbind, M_bind, bind.
  rewrite (lookup_total_correct _ _ _ Hx).
  apply shuffle_loop_run; [done|]. destruct l; simpl; [by right|left; lia].
Qed.

End Shuffler.

(** C9. Shuffler law: for a quiz item whose alternatives are the list
    object [alts], presenting the item yields a new list object holding a
    permutation of [alts] followed by the original morpheme; that object is
    the only change to the heap, so the item's own list of alternatives is
    the same afterwards, and the item, a value, still names the same
    morpheme and the same list. *)
Theorem shuffler_law (rand : nat → nat) (item : ItemRef) (alts : list str)
    (w : World) :
  heap w !! item_alternatives item = Some alts →
  ∃ joined_answers shuffled w',
    present rand item w = (Ok joined_answers, w')
    ∧ heap w !! joined_answers = None
    ∧ heap w' = <[joined_answers := shuffled]> (heap w)
    ∧ shuffled ≡ₚ alts ++ [item_original_morpheme item]
    ∧ heap w' !! item_alternatives item = Some alts
    ∧ calls w' = calls w.
Proof.
  intros Halts. unfold present, read, alloc. unfold mbind, M_bind, bind. unfold_M.
  rewrite (lookup_total_correct _ _ _ Halts).
  set (x := fresh (dom (heap w))).
  assert (Hfresh : heap w !! x = None) by apply not_elem_of_dom, is_fresh.
  set (w0 := {| calls := calls w; draws := draws w;
                heap := <[x := alts ++ [item_original_morpheme item]]> (heap w) |}).
  destruct (shuffle_run rand x (alts ++ [item_original_morpheme item]) w0)
    as (shuffled & w' & -> & Hh & Hp & Hc).
  { apply lookup_insert_eq. }
  exists x, shuffled, w'. simpl in Hh. rewrite insert_insert_eq in Hh.
  split_and!; try done.
  rewrite Hh, lookup_insert_ne; [done|]. intros ->. congruence.
Qed.

(** The shuffler law for the quiz item of the tea scenario. *)
Lemma shuffler_law_witness :
  ∃ joined_answers shuffled w',
    present some_draws tea_item display_world = (Ok joined_answers, w')
    ∧ heap display_world !! joined_answers = None
    ∧ heap w' = <[joined_answers := shuffled]> (heap display_world)
    ∧ shuffled ≡ₚ tea_alternatives ++ [chadao]
    ∧ heap w' !! 0 = Some tea_alternatives
    ∧ calls w' = calls display_world.
Proof.
  apply (shuffler_law some_draws tea_item tea_alternatives display_world).
  reflexivity.
Defined.

(** ** More on [extract_morphemes] *)

Lemma outer_inner_eligible (compounds : list Compound) (token : Token) :
  outer_test token = true →
  inner_test compounds (compound_of token) token = true →
  eligible token.
Proof.
  intros Houter Hinner.
  assert (Hcand : is_candidate compounds token).
  { destruct (decide (is_candidate compounds token)) as [|Hno]; [done|].
    pose proof (filter_step_rejects _ _ Hno) as Hrej.
    unfold filter_step in Hrej. rewrite Houter, Hinner in Hrej.
    apply (f_equal length) in Hrej. rewrite length_app in Hrej.
    simpl in Hrej. lia. }
  destruct Hcand as (? & ? & ? & ? & _ & ?). by repeat split.
Qed.

Lemma foldl_filter_step_sources (doc : list Token) (compounds : list Compound)
    (c : Compound) :
  c ∈ foldl filter_step compounds doc →
  c ∈ compounds ∨ ∃ token, token ∈ doc ∧ c = compound_of token ∧ eligible token.
Proof.
  revert compounds. induction doc as [|token doc IH]; intros compounds Hc.
  - by left.
  - simpl in Hc. apply IH in Hc as [Hc|(t & Ht & -> & Hel)].
    + unfold filter_step in Hc.
      destruct (outer_test token) eqn:Houter; [|by left].
      destruct (inner_test compounds (compound_of token) token) eqn:Hinner;
        [|by left].
      apply elem_of_app in Hc as [Hc|Hc]; [by left|].
      apply list_elem_of_singleton in Hc as ->. right. exists token.
      split_and!; [by left|done|]. by eapply outer_inner_eligible.
    + right. exists t. split_and!; [by right|done..].
Qed.

Lemma filter_loop_sources (doc : list Token) (c : Compound) :
  c ∈ filter_loop doc →
  ∃ token, token ∈ doc ∧ c = compound_of token ∧ eligible token.
Proof.
  intros Hc. apply foldl_filter_step_sources in Hc as [Hc|Hc]; [|done].
  by apply not_elem_of_nil in Hc.
Qed.

Lemma ranked_morphemes_sources (doc : list Token) (m : str) :
  m ∈ ranked_morphemes doc →
  ∃ token, token ∈ doc ∧ text token = m ∧ eligible token.
Proof.
  unfold ranked_morphemes. intros Hm.
  apply list_elem_of_fmap in Hm as (c & -> & Hc).
  rewrite sort_reverse_perm in Hc.
  apply filter_loop_sources in Hc as (token & Hin & -> & Hel). by exists token.
Qed.

Lemma foldl_filter_step_sublist (doc : list Token) (compounds : list Compound) :
  foldl filter_step compounds doc
  `sublist_of` compounds ++ (compound_of <$> doc).
Proof.
  revert compounds. induction doc as [|token doc IH]; intros compounds; simpl.
  - by rewrite app_nil_r.
  - etrans; [apply IH|]. unfold filter_step.
    destruct (outer_test token);
      [destruct (inner_test compounds (compound_of token) token)|].
    + by rewrite <-app_assoc.
    + apply sublist_app; [done|]. by apply sublist_cons.
    + apply sublist_app; [done|]. by apply sublist_cons.
Qed.

Section ExtractMore.

Variable nlp : str → list Token.
Variable rand : nat → nat.

Lemma sample_loop_draws (rounds i n : nat) (pool l : list str) (w w' : World) :
  sample_loop rand rounds i n pool w = (Ok l, w') →
  draws w' = draws w + rounds.
Proof.
  revert i pool l w w'.
  induction rounds as [|rounds IH]; intros i pool l w w' Hrun.
  - simpl in Hrun. unfold_M. simplify_eq. lia.
  - cbn [sample_loop] in Hrun. unfold mbind, M_bind, bind, randbelow in Hrun.
    destruct (pool !! _) as [picked|] eqn:Hp; [|by unfold_M].
    destruct (pool !! (n - i - 1)) as [last|] eqn:Hl; [|by unfold_M].
    destruct (sample_loop rand rounds (S i) n _ _) as [[l'|e] w1] eqn:Hrest;
      [|done].
    apply IH in Hrest. unfold_M. simplify_eq. simpl in Hrest. lia.
Qed.

(** The three cases of [extract_morphemes]. *)
Lemma extract_morphemes_cases (passage : str) (k : Z) (w : World) :
  let morphemes := ranked_morphemes (nlp passage) in
  let w1 := record_calls [Nlp passage] w in
  ((Z.of_nat (length morphemes) < k)%Z →
     extract_morphemes nlp rand passage k w = (Ok morphemes, w1))
  ∧ (samples nlp passage k →
     ∃ l w', extract_morphemes nlp rand passage k w = (Ok l, w')
             ∧ Z.of_nat (length l) = k
             ∧ l ⊆+ take 10 morphemes
             ∧ calls w' = calls w1 ∧ heap w' = heap w1
             ∧ draws w' = draws w1 + Z.to_nat k)
  ∧ ((k ≤ Z.of_nat (length morphemes))%Z → ¬ (0 ≤ k ≤ 10)%Z →
     extract_morphemes nlp rand passage k w = (Raise ValueError, w1)).
Proof.
  intros morphemes w1. rewrite extract_morphemes_unfold. fold morphemes w1.
  unfold sample_morphemes.
  assert (Hpool : length (take 10 morphemes) = min 10 (length morphemes))
    by apply length_take.
  split_and!.
  - intros Hlt. by rewrite bool_decide_eq_true_2.
  - intros [Hk Hle]. unfold candidate_count in Hle. fold morphemes in Hle.
    rewrite bool_decide_eq_false_2 by lia.
    destruct (random_sample_ok rand (take 10 morphemes) k w1)
      as (l & w' & Hrun & Hl & Hsub & _ & Hc & Hh); [lia|].
    exists l, w'. split_and!; try done.
    unfold random_sample in Hrun. rewrite bool_decide_eq_true_2 in Hrun by lia.
    by apply sample_loop_draws in Hrun.
  - intros Hle Hk. rewrite bool_decide_eq_false_2 by lia.
    apply random_sample_raises. lia.
Qed.

End ExtractMore.

(** X1. Whatever [extract_morphemes] returns, its morphemes are pairwise
    distinct and each is the text of a token of the annotated passage that
    is a noun, verb or adjective of at least two code points, neither
    punctuation nor whitespace, with a subject, direct-object or compound
    role or a noun among its ancestors. *)
Theorem selected_morphemes_eligible (nlp : str → list Token) (rand : nat → nat)
    (passage : str) (num_morphemes : Z) (w w' : World) (selected : list str) :
  extract_morphemes nlp rand passage num_morphemes w = (Ok selected, w') →
  NoDup selected
  ∧ ∀ m, m ∈ selected →
         ∃ token, token ∈ nlp passage ∧ text token = m ∧ eligible token.
Proof.
  intros Hrun.
  assert (Hsub : selected ⊆+ ranked_morphemes (nlp passage)).
  { destruct (extract_morphemes_cases nlp rand passage num_morphemes w)
      as (Hall & Hsample & Hraise).
    destruct (decide (Z.of_nat (length (ranked_morphemes (nlp passage)))
                      < num_morphemes)%Z) as [Hlt|Hge].
    - rewrite (Hall Hlt) in Hrun. by simplify_eq.
    - destruct (decide (0 ≤ num_morphemes ≤ 10)%Z) as [Hk|Hk].
      + destruct Hsample as (l & w2 & Hrun' & _ & Hsub & _).
        { split; [done|]. unfold candidate_count. lia. }
        rewrite Hrun' in Hrun. simplify_eq.
        etrans; [exact Hsub|]. apply submseteq_take.
      + rewrite Hraise in Hrun by (done || lia). done. }
  split.
  - eapply submseteq_NoDup; [exact Hsub|]. apply ranked_morphemes_NoDup.
  - intros m Hm. apply ranked_morphemes_sources. by eapply elem_of_submseteq.
Qed.

(** The eligibility of the morphemes selected for the passage 学校研究所. *)
Lemma selected_morphemes_eligible_witness :
  NoDup [yanjiusuo; xuexiao]
  ∧ ∀ m, m ∈ [yanjiusuo; xuexiao] →
         ∃ token, token ∈ school_nlp school_passage ∧ text token = m
                  ∧ eligible token.
Proof.
  apply (selected_morphemes_eligible school_nlp no_draws school_passage 10
           initial_world
           (extract_morphemes school_nlp no_draws school_passage 10
              initial_world).2).
  vm_compute. reflexivity.
Defined.

(** X2. [extract_morphemes] raises exactly when [num_morphemes] is negative
    or is above 10 while there are at least that many candidates, and the
    exception is then [ValueError]; in every other case it returns
    [min(num_morphemes, number of candidates)] morphemes. *)
Theorem extract_morphemes_outcome (nlp : str → list Token) (rand : nat → nat)
    (passage : str) (num_morphemes : Z) (w : World) :
  let n := candidate_count nlp passage in
  let outcome := (extract_morphemes nlp rand passage num_morphemes w).1 in
  ((num_morphemes < 0 ∨ 10 < num_morphemes ≤ n)%Z →
     outcome = Raise ValueError)
  ∧ (¬ (num_morphemes < 0 ∨ 10 < num_morphemes ≤ n)%Z →
     ∃ selected, outcome = Ok selected
                 ∧ Z.of_nat (length selected) = Z.min num_morphemes n).
Proof.
  intros n outcome. subst outcome.
  destruct (extract_morphemes_cases nlp rand passage num_morphemes w)
    as (Hall & Hsample & Hraise).
  unfold samples in Hsample. fold n in Hsample.
  unfold candidate_count in n. fold n in Hall, Hraise.
  split.
  - intros Hbad. rewrite Hraise; [done|lia..].
  - intros Hgood. destruct (decide (n < num_morphemes)%Z) as [Hlt|Hge].
    + rewrite (Hall Hlt). eexists. split; [done|]. fold n. lia.
    + destruct Hsample as (l & w' & -> & Hl & _); [lia|].
      exists l. split; [done|]. lia.
Qed.

(** The outcome for eleven candidates: 11 raises, 12 returns all eleven,
    4 returns four. *)
Lemma extract_morphemes_outcome_witness :
  (extract_morphemes (λ _, eleven_nouns) no_draws [] 11 initial_world).1
  = Raise ValueError
  ∧ ∃ selected,
      (extract_morphemes (λ _, eleven_nouns) no_draws [] 4 initial_world).1
      = Ok selected
      ∧ Z.of_nat (length selected)
        = Z.min 4 (candidate_count (λ _, eleven_nouns) []).
Proof.
  split.
  - apply (proj1 (extract_morphemes_outcome (λ _, eleven_nouns) no_draws []
                    11 initial_world)).
    right. vm_compute. split; [reflexivity|discriminate].
  - apply (proj2 (extract_morphemes_outcome (λ _, eleven_nouns) no_draws []
                    4 initial_world)).
    vm_compute. intros [H|[H _]]; discriminate H.
Defined.

(** X3. The filter loop neither reorders nor alters what it keeps: its
    candidates are the dictionaries of a subsequence of the tokens, in
    token order. *)
Theorem filter_loop_keeps_order (doc : list Token) :
  filter_loop doc `sublist_of` (compound_of <$> doc).
Proof. apply (foldl_filter_step_sublist doc []). Qed.

(** X4. The effects of [extract_morphemes], whether it returns or raises:
    one call to [nlp] and no other call, no change to the heap, and
    [num_morphemes] random draws when it samples (a count from 0 to 10 that
    does not exceed the number of candidates), none otherwise. *)
Theorem extract_morphemes_effects (nlp : str → list Token) (rand : nat → nat)
    (passage : str) (num_morphemes : Z) (w : World) :
  let w' := (extract_morphemes nlp rand passage num_morphemes w).2 in
  calls w' = calls w ++ [Nlp passage]
  ∧ heap w' = heap w
  ∧ draws w' = draws w
               + (if decide (samples nlp passage num_morphemes)
                  then Z.to_nat num_morphemes else 0).
Proof.
  intros w'. subst w'.
  destruct (extract_morphemes_cases nlp rand passage num_morphemes w)
    as (Hall & Hsample & Hraise).
  destruct (decide (samples nlp passage num_morphemes)) as [Hs|Hs].
  - destruct (Hsample Hs) as (l & w' & -> & _ & _ & Hc & Hh & Hd).
    simpl. by rewrite Hc, Hh, Hd.
  - unfold samples, candidate_count in Hs.
    destruct (decide (Z.of_nat (length (ranked_morphemes (nlp passage)))
                      < num_morphemes)%Z) as [Hlt|Hge].
    + rewrite (Hall Hlt). simpl. split_and!; [done..|lia].
    + rewrite Hraise by lia. simpl. split_and!; [done..|lia].
Qed.

(** ** [strip], [split] and [join] *)

Lemma lstrip_blank_app (a s : str) : blank a → lstrip (a ++ s) = lstrip s.
Proof.
  induction 1 as [|c a Hc _ IH]; simpl; [done|]. by rewrite Hc.
Qed.

Lemma lstrip_blank (a : str) : blank a → lstrip a = [].
Proof. intros Ha. rewrite <-(app_nil_r a). by rewrite lstrip_blank_app. Qed.

Lemma lstrip_split (s : str) : ∃ a, s = a ++ lstrip s ∧ blank a.
Proof.
  induction s as [|c s (a & Hs & Ha)]; simpl.
  - exists []. split; [done|constructor].
  - destruct (isspace c) eqn:Hc.
    + exists (c :: a). split; [by rewrite Hs at 1|by constructor].
    + exists []. split; [done|constructor].
Qed.

Lemma lstrip_head (s : str) (c : N) : head (lstrip s) = Some c → isspace c = false.
Proof.
  induction s as [|d s IH]; simpl; [done|].
  destruct (isspace d) eqn:Hd; [done|]. simpl. by intros [= <-].
Qed.

Lemma lstrip_app_blank (s b : str) :
  blank b → lstrip (s ++ b) = match lstrip s with [] => [] | _ => lstrip s ++ b end.
Proof.
  intros Hb. induction s as [|c s IH]; simpl.
  - by apply lstrip_blank.
  - by destruct (isspace c).
Qed.

Lemma blank_reverse (b : str) : blank b → blank (reverse b).
Proof. unfold blank. by rewrite Forall_reverse. Qed.

Lemma rstrip_app_blank (s b : str) : blank b → rstrip (s ++ b) = rstrip s.
Proof.
  intros Hb. unfold rstrip.
  by rewrite reverse_app, lstrip_blank_app by by apply blank_reverse.
Qed.

Lemma rstrip_split (s : str) : ∃ b, s = rstrip s ++ b ∧ blank b.
Proof.
  unfold rstrip. destruct (lstrip_split (reverse s)) as (a & Hs & Ha).
  exists (reverse a). split; [|by apply blank_reverse].
  rewrite <-reverse_app, <-Hs. by rewrite reverse_involutive.
Qed.

Lemma rstrip_last (s : str) (c : N) : last (rstrip s) = Some c → isspace c = false.
Proof. unfold rstrip. rewrite last_reverse. apply lstrip_head. Qed.

Lemma rstrip_head (s : str) (c : N) :
  (∀ d, head s = Some d → isspace d = false) →
  head (rstrip s) = Some c → isspace c = false.
Proof.
  intros Hs Hc. destruct (rstrip_split s) as (b & Heq & Hb).
  destruct (rstrip s) as [|d r]; [done|]. simpl in Hc. simplify_eq.
  by apply Hs.
Qed.

Lemma strip_stripped (s : str) : stripped (strip s).
Proof.
  split; intros c Hc.
  - eapply rstrip_head; [|exact Hc]. apply lstrip_head.
  - by eapply rstrip_last.
Qed.

(** [strip] removes a blank prefix and a blank suffix and nothing else. *)
Lemma strip_split (s : str) : ∃ a b, s = a ++ strip s ++ b ∧ blank a ∧ blank b.
Proof.
  destruct (lstrip_split s) as (a & Hs & Ha).
  destruct (rstrip_split (lstrip s)) as (b & Hl & Hb).
  exists a, b. split; [|done]. unfold strip. by rewrite <-Hl.
Qed.

Lemma strip_blank_around (a s b : str) :
  blank a → blank b → strip (a ++ s ++ b) = strip s.
Proof.
  intros Ha Hb. unfold strip. rewrite lstrip_blank_app, lstrip_app_blank by done.
  destruct (lstrip s) eqn:Hl; [done|]. by rewrite rstrip_app_blank.
Qed.

Lemma strip_blank (b : str) : blank b → strip b = [].
Proof.
  intros Hb. rewrite <-(app_nil_r b). change (b ++ []) with (b ++ [] ++ []).
  by rewrite strip_blank_around by (done || constructor).
Qed.

Lemma strip_elem_of (s : str) (c : N) : c ∈ strip s → c ∈ s.
Proof.
  intros Hc. destruct (strip_split s) as (a & b & Hs & _).
  rewrite Hs, !elem_of_app. auto.
Qed.

Lemma split_cons_other (sep c : N) (s : str) :
  c ≠ sep →
  ∃ field fields, split sep s = field :: fields
                  ∧ split sep (c :: s) = (c :: field) :: fields.
Proof.
  intros Hc. pose proof (split_nonempty sep s) as Hne. simpl.
  destruct (N.eqb_spec c sep) as [|_]; [done|].
  destruct (split sep s) as [|field fields]; [done|]. eauto.
Qed.

Lemma split_fields_free (sep : N) (s field : str) :
  field ∈ split sep s → sep ∉ field.
Proof.
  revert field. induction s as [|c s IH]; intros field Hf; simpl in Hf.
  - apply list_elem_of_singleton in Hf as ->. apply not_elem_of_nil.
  - destruct (N.eqb_spec c sep) as [->|Hc].
    + apply elem_of_cons in Hf as [->|Hf]; [apply not_elem_of_nil|by apply IH].
    + destruct (split sep s) as [|f fs] eqn:Hs.
      * apply list_elem_of_singleton in Hf as ->.
        intros Hin. apply list_elem_of_singleton in Hin. done.
      * apply elem_of_cons in Hf as [->|Hf].
        -- intros Hin. apply elem_of_cons in Hin as [Hin|Hin]; [done|].
           revert Hin. apply IH. by left.
        -- apply IH. by right.
Qed.

Lemma split_free (sep : N) (s : str) : sep ∉ s → split sep s = [s].
Proof.
  induction s as [|c s IH]; intros Hs; simpl; [done|].
  destruct (N.eqb_spec c sep) as [->|Hc]; [by destruct Hs; left|].
  rewrite IH; [done|]. intros Hin. apply Hs. by right.
Qed.

Lemma split_app_sep (sep : N) (field s : str) :
  sep ∉ field → split sep (field ++ sep :: s) = field :: split sep s.
Proof.
  induction field as [|c field IH]; intros Hf; simpl.
  - by rewrite N.eqb_refl.
  - destruct (N.eqb_spec c sep) as [->|Hc]; [by destruct Hf; left|].
    rewrite IH; [done|]. intros Hin. apply Hf. by right.
Qed.

Lemma join_cons (sep : N) (field field' : str) (rest : list str) :
  join sep (field :: field' :: rest) = field ++ sep :: join sep (field' :: rest).
Proof. reflexivity. Qed.

Lemma split_join (sep : N) (fields : list str) :
  fields ≠ [] → (∀ field, field ∈ fields → sep ∉ field) →
  split sep (join sep fields) = fields.
Proof.
  induction fields as [|field rest IH]; intros Hne Hfree; [done|].
  destruct rest as [|field' rest'].
  - simpl. apply split_free. apply Hfree. by left.
  - rewrite join_cons, split_app_sep by (apply Hfree; by left).
    rewrite IH; [done..|]. intros f Hin. apply Hfree. by right.
Qed.

Lemma split_blank_app (sep : N) (a s : str) :
  isspace sep = false → blank a →
  strip <$> split sep (a ++ s) = strip <$> split sep s.
Proof.
  intros Hsep. induction 1 as [|c a Hc Ha IH]; [done|].
  assert (Hne : c ≠ sep) by (intros ->; congruence).
  destruct (split_cons_other sep c (a ++ s) Hne) as (f & fs & Hs & Hcs).
  change ((c :: a) ++ s) with (c :: a ++ s). rewrite Hcs, <-IH, Hs.
  rewrite !fmap_cons. f_equal.
  unfold strip. simpl. by rewrite Hc.
Qed.

Lemma split_app_free (sep : N) (s b : str) :
  sep ∉ b → split sep (s ++ b) = append_last (split sep s) b.
Proof.
  intros Hb. induction s as [|c s IH]; simpl.
  - by apply split_free.
  - pose proof (split_nonempty sep s) as Hne.
    destruct (N.eqb_spec c sep) as [->|Hc].
    + rewrite IH. by destruct (split sep s).
    + rewrite IH. destruct (split sep s) as [|f [|f' fs]]; done.
Qed.

Lemma strip_append_last (fields : list str) (b : str) :
  blank b → strip <$> append_last fields b = strip <$> fields.
Proof.
  intros Hb. induction fields as [|f [|f' fs] IH]; [done| |].
  - simpl. f_equal. rewrite <-(strip_blank_around [] f b) by (done || constructor).
    done.
  - change (append_last (f :: f' :: fs) b) with (f :: append_last (f' :: fs) b).
    by rewrite !(fmap_cons _ f), IH.
Qed.

Lemma blank_free (sep : N) (b : str) : isspace sep = false → blank b → sep ∉ b.
Proof.
  intros Hsep Hb Hin. unfold blank in Hb. rewrite Forall_forall in Hb.
  specialize (Hb sep Hin). congruence.
Qed.

(** Stripping the whole text before splitting it does not change the
    stripped fields. *)
Lemma strip_split_fields (sep : N) (s : str) :
  isspace sep = false →
  strip <$> split sep (strip s) = strip <$> split sep s.
Proof.
  intros Hsep. destruct (strip_split s) as (a & b & Hs & Ha & Hb).
  rewrite Hs at 2. rewrite split_blank_app by done.
  rewrite split_app_free by by apply blank_free.
  by rewrite strip_append_last.
Qed.

Lemma parse_alternatives_fields (answer : str) :
  parse_alternatives (Some answer) = take 3 (strip <$> split 124 answer).
Proof.
  unfold parse_alternatives. by rewrite fmap_take, strip_split_fields.
Qed.

(** ** More on [generate_alternatives] *)

(** X5. [generate_alternatives] never raises and makes exactly one call to
    the model.  It returns at most three alternatives, none exactly when the
    call raised; no alternative contains the separator [|] and none starts
    or ends with whitespace. *)
Theorem generate_alternatives_shape (model : str → option str)
    (morpheme : str) (w : World) :
  ∃ alts,
    generate_alternatives model morpheme w
    = (Ok alts, record_calls [GenerateContent (alternatives_prompt morpheme)] w)
    ∧ length alts ≤ 3
    ∧ (alts = [] ↔ model (alternatives_prompt morpheme) = None)
    ∧ ∀ alt, alt ∈ alts → (124%N ∉ alt) ∧ stripped alt.
Proof.
  exists (parse_alternatives (model (alternatives_prompt morpheme))).
  split_and!.
  - reflexivity.
  - apply parse_alternatives_length.
  - apply parse_alternatives_nil.
  - intros alt Halt.
    destruct (model (alternatives_prompt morpheme)) as [answer|];
      [|by apply not_elem_of_nil in Halt].
    simpl in Halt. apply list_elem_of_fmap in Halt as (field & -> & Hfield).
    split; [|apply strip_stripped].
    intros Hsep. apply strip_elem_of in Hsep. revert Hsep.
    eapply split_fields_free, elem_of_submseteq; [exact Hfield|].
    apply submseteq_take.
Qed.

(** X6. When the model answers [f1|f2|...|fn], the fields holding no [|],
    the alternatives are the first three fields, each stripped: whitespace
    around the answer or around a field makes no difference, further fields
    are dropped, and a single field gives a single alternative. *)
Theorem well_formed_answer (model : str → option str) (morpheme : str)
    (fields : list str) (w : World) :
  fields ≠ [] →
  (∀ field, field ∈ fields → 124%N ∉ field) →
  model (alternatives_prompt morpheme) = Some (join 124 fields) →
  (generate_alternatives model morpheme w).1 = Ok (take 3 (strip <$> fields)).
Proof.
  intros Hne Hfree Hanswer. rewrite generate_alternatives_run. simpl.
  unfold alternatives_for. rewrite Hanswer, parse_alternatives_fields.
  by rewrite split_join.
Qed.

(** The answer 茶艺|茶叶|茶杯 of the tea scenario. *)
Lemma well_formed_answer_witness :
  (generate_alternatives tea_model chadao initial_world).1
  = Ok (take 3 (strip <$> tea_alternatives)).
Proof.
  apply (well_formed_answer tea_model chadao tea_alternatives initial_world).
  - discriminate.
  - apply Forall_forall. refine (bool_decide_unpack _ _). vm_compute. exact I.
  - vm_compute. reflexivity.
Defined.

(** ** More on [create_quiz] *)

Lemma occurs_cons (u s : str) (c : N) : occurs u s → occurs u (c :: s).
Proof. intros (a & b & ->). by exists (c :: a), b. Qed.

Lemma occurs_app_r (u k s : str) : occurs u s → occurs u (k ++ s).
Proof.
  intros (a & b & ->). exists (k ++ a), b. by rewrite <-app_assoc.
Qed.

Lemma occurs_prefix (u k : str) : occurs u (u ++ k).
Proof. by exists [], k. Qed.

(** What is found in the result of a replacement and avoids the code
    points of [new] was already in the original. *)
Lemma occurs_replace_inv (old new u s : str) :
  old ≠ [] → new ≠ [] → (∀ x, x ∈ u → x ∉ new) →
  occurs u (replace old new s) → occurs u s.
Proof.
  intros Hold Hnew Hu. destruct u as [|u0 u]; [by exists [], s|].
  induction s as [s IH] using str_length_ind.
  destruct (scan_cases old s) as [->|[(k & -> & _)|(c & s' & -> & Hno)]].
  - by rewrite replace_nil.
  - rewrite replace_match by done. intros Hocc.
    apply occurs_after_disjoint in Hocc; [|done..].
    apply occurs_app_r, IH; [|done].
    rewrite length_app. destruct old; [done|simpl; lia].
  - rewrite replace_skip by done. intros (a & b & Heq).
    destruct a as [|a0 a]; simplify_eq/=.
    + destruct (prefix_of_replace old new u s') as (k & ->); try done.
      * intros y Hy. apply Hu. by right.
      * by exists b.
      * apply (occurs_prefix (u0 :: u)).
    + apply occurs_cons, IH; [simpl; lia|]. by exists a, b.
Qed.

Lemma replace_not_occurs (old new s : str) :
  old ≠ [] → ¬ occurs old s → replace old new s = s.
Proof.
  intros Hold. induction s as [|c s IH]; intros Hs; [by apply replace_nil|].
  rewrite replace_skip; [|done|].
  - f_equal. apply IH. intros Hocc. by apply Hs, occurs_cons.
  - destruct (startswith old (c :: s)) eqn:Hsw; [|done].
    apply startswith_spec in Hsw as (k & Hk). destruct Hs. rewrite Hk.
    apply occurs_prefix.
Qed.

Lemma digits_chars (d : Decimal.uint) (c : N) :
  c ∈ digits d → (48 ≤ c ≤ 57)%N.
Proof.
  induction d; simpl; intros Hc; try (by apply not_elem_of_nil in Hc);
    apply elem_of_cons in Hc as [->|Hc]; auto; lia.
Qed.

Lemma placeholder_chars (i : nat) (c : N) :
  c ∈ placeholder i → placeholder_char c.
Proof.
  unfold placeholder, placeholder_char, str_of_nat. rewrite !elem_of_app.
  intros [Hc|[Hc|Hc]].
  - vm_compute in Hc. apply elem_of_cons in Hc as [->|Hc]; [auto|].
    apply list_elem_of_singleton in Hc as ->. auto.
  - apply digits_chars in Hc. auto.
  - vm_compute in Hc. apply elem_of_cons in Hc as [->|Hc]; [auto|].
    apply list_elem_of_singleton in Hc as ->. auto.
Qed.

Lemma placeholder_nonempty (i : nat) : placeholder i ≠ [].
Proof. unfold placeholder. by vm_compute. Qed.

Lemma placeholder_free_disjoint (m : str) (i : nat) :
  placeholder_free m → ∀ x, x ∈ m → x ∉ placeholder i.
Proof. intros Hm x Hx Hp. apply (Hm x Hx). by eapply placeholder_chars. Qed.

(** Masking leaves none of the masked morphemes in the text, when they hold
    no code point of a placeholder. *)
Lemma mask_from_clears (morphemes : list str) (i : nat) (masked : str) :
  (∀ m, m ∈ morphemes → m ≠ [] ∧ placeholder_free m) →
  ∀ m, m ∈ morphemes →
       ¬ occurs m (foldl mask_step masked (enumerate_from i morphemes)).
Proof.
  induction morphemes as [|m' morphemes IH] using rev_ind; intros Hms m Hm.
  - by apply not_elem_of_nil in Hm.
  - rewrite enumerate_from_snoc, foldl_snoc. unfold mask_step at 1. simpl.
    apply elem_of_app in Hm as [Hm|Hm].
    + intros Hocc. apply occurs_replace_inv in Hocc.
      * revert Hocc. apply IH; [|done]. intros x Hx. apply Hms.
        apply elem_of_app. by left.
      * apply Hms, elem_of_app. right. by left.
      * apply placeholder_nonempty.
      * apply placeholder_free_disjoint, Hms, elem_of_app. by left.
    + apply list_elem_of_singleton in Hm as ->.
      destruct (Hms m') as [Hne Hfree]; [apply elem_of_app; right; by left|].
      apply replace_clears_disjoint; [done|apply placeholder_nonempty|].
      by apply placeholder_free_disjoint.
Qed.

(** Masking a text that holds none of the morphemes changes nothing. *)
Lemma mask_from_absent (morphemes : list str) (i : nat) (masked : str) :
  (∀ m, m ∈ morphemes → m ≠ [] ∧ ¬ occurs m masked) →
  foldl mask_step masked (enumerate_from i morphemes) = masked.
Proof.
  revert i. induction morphemes as [|m morphemes IH]; intros i Hms; [done|].
  unfold enumerate_from. simpl. fold (enumerate_from (S i) morphemes).
  unfold mask_step at 2. simpl.
  destruct (Hms m) as [Hne Hocc]; [by left|].
  rewrite replace_not_occurs by done. apply IH.
  intros x Hx. apply Hms. by right.
Qed.

Section QuizMore.

Variable model : str → option str.
Variable nlp : str → list Token.
Variable rand : nat → nat.

(** Every run of [create_quiz]. *)
Lemma create_quiz_result (prompt : str) (w : World) :
  let response := response_text (model (response_prompt prompt)) in
  ∃ target_morphemes w',
    create_quiz model nlp rand prompt w
    = (Ok (response,
           item_for model <$> answerable model target_morphemes,
           mask_all target_morphemes response), w')
    ∧ calls w' = calls w
                 ++ GenerateContent (response_prompt prompt)
                    :: match response with
                       | [] => []
                       | _ :: _ => Nlp response :: distractor_calls target_morphemes
                       end
    ∧ heap w' = heap w
    ∧ NoDup target_morphemes
    ∧ target_morphemes ⊆ take 10 (ranked_morphemes (nlp response))
    ∧ length target_morphemes ≤ 10.
Proof.
  intros response.
  destruct (decide (response = [])) as [He|Hne].
  - exists [], (record_calls [GenerateContent (response_prompt prompt)] w).
    rewrite create_quiz_empty by done. rewrite He.
    split_and!; try done; [apply NoDup_nil_2|apply list_subseteq_nil|simpl; lia].
  - destruct (extract_morphemes_default nlp rand response
                (record_calls [GenerateContent (response_prompt prompt)] w))
      as (ms & w1 & Hext & Hc & Hh & Hnd & Hsub & _).
    exists ms, (record_calls (distractor_calls ms) w1).
    split_and!; try done.
    + unfold create_quiz, mbind, M_bind, bind.
      rewrite generate_chinese_response_run. fold response.
      destruct response as [|c response'] eqn:Hresp; [done|].
      by rewrite Hext, quiz_loop_run.
    + simpl. rewrite Hc. simpl. rewrite <-!app_assoc.
      by destruct response.
    + etrans; [apply submseteq_length, NoDup_submseteq; [exact Hnd|exact Hsub]|].
      rewrite length_take. lia.
Qed.

End QuizMore.

(** X7. [create_quiz] raises no exception of its own, whatever the model
    answers or raises, whatever document [nlp] returns and whatever the
    random draws are: the default sample size 10 never makes
    [random.sample] fail.  It leaves the heap as it was.  When the passage
    is empty its only call is the passage call; otherwise its calls are the
    passage call, one call to [nlp] on the passage and one distractor call
    for each morpheme [extract_morphemes] selected, in the order of the
    selection, of which there are at most ten. *)
Theorem create_quiz_never_raises (model : str → option str)
    (nlp : str → list Token) (rand : nat → nat) (prompt : str) (w : World) :
  let passage := response_text (model (response_prompt prompt)) in
  let w0 := record_calls [GenerateContent (response_prompt prompt)] w in
  ∃ quiz_items masked_text w',
    create_quiz model nlp rand prompt w
    = (Ok (passage, quiz_items, masked_text), w')
    ∧ heap w' = heap w
    ∧ match passage with
      | [] => calls w' = calls w0
      | _ :: _ =>
          ∃ target_morphemes,
            (extract_morphemes nlp rand passage 10 w0).1 = Ok target_morphemes
            ∧ length target_morphemes ≤ 10
            ∧ calls w' = calls w0 ++ Nlp passage :: distractor_calls target_morphemes
      end.
Proof.
  intros passage w0.
  destruct (create_quiz_result model nlp rand prompt w)
    as (ms0 & w' & Hrun & _ & Hheap & _).
  fold passage in Hrun.
  eexists _, _, w'. split; [exact Hrun|]. split; [exact Hheap|].
  destruct (decide (passage = [])) as [He|Hne].
  - rewrite create_quiz_empty in Hrun by done. rewrite He. by simplify_eq.
  - destruct (create_quiz_run model nlp rand prompt w Hne)
      as (ms & w1 & w2 & Hext & Hrun' & Hcalls & Hnd & Hsub).
    fold passage w0 in Hext, Hrun', Hcalls, Hsub.
    rewrite Hrun in Hrun'. injection Hrun' as _ _ <-.
    destruct passage as [|c passage'] eqn:Hp; [done|].
    exists ms. rewrite Hext. split_and!; [done| |].
    + etrans; [apply submseteq_length, NoDup_submseteq; [exact Hnd|exact Hsub]|].
      rewrite length_take. lia.
    + rewrite Hcalls. simpl. by rewrite <-app_assoc.
Qed.

(** X8. A quiz has at most ten items, their original morphemes are pairwise
    distinct, and each is the text of a token of the annotated passage that
    passes the tests of the filter loop; in particular it has at least two
    code points. *)
Theorem quiz_items_bound (model : str → option str) (nlp : str → list Token)
    (rand : nat → nat) (prompt : str) (w w' : World)
    (passage masked_text : str) (quiz_items : list QuizItem) :
  create_quiz model nlp rand prompt w
  = (Ok (passage, quiz_items, masked_text), w') →
  length quiz_items ≤ 10
  ∧ NoDup (original_morpheme <$> quiz_items)
  ∧ ∀ item, item ∈ quiz_items →
            ∃ token, token ∈ nlp passage
                     ∧ text token = original_morpheme item
                     ∧ eligible token.
Proof.
  intros Hrun.
  destruct (create_quiz_result model nlp rand prompt w)
    as (ms & w2 & Hrun' & _ & _ & Hnd & Hsub & Hlen).
  rewrite Hrun' in Hrun. simplify_eq.
  assert (Horig : original_morpheme <$> (item_for model <$> answerable model ms)
                  = answerable model ms).
  { rewrite <-list_fmap_compose. apply list_fmap_id. }
  assert (Hsl : answerable model ms `sublist_of` ms) by apply sublist_filter.
  split_and!.
  - rewrite length_fmap. etrans; [apply sublist_length, Hsl|done].
  - rewrite Horig. by eapply sublist_NoDup.
  - intros item Hitem. apply list_elem_of_fmap in Hitem as (m & -> & Hm).
    apply list_elem_of_filter in Hm as [_ Hm]. simpl.
    apply ranked_morphemes_sources.
    eapply elem_of_submseteq; [apply Hsub, Hm|apply submseteq_take].
Qed.

(** The bound for the quiz of the tea scenario. *)
Lemma quiz_items_bound_witness :
  ∃ quiz_items,
    length quiz_items ≤ 10
    ∧ NoDup (original_morpheme <$> quiz_items)
    ∧ ∀ item, item ∈ quiz_items →
              ∃ token, token ∈ tea_nlp tea_passage
                       ∧ text token = original_morpheme item
                       ∧ eligible token.
Proof.
  exists [{| original_morpheme := chadao; alternatives := tea_alternatives |}].
  apply (quiz_items_bound tea_model tea_nlp no_draws topic initial_world
           (create_quiz tea_model tea_nlp no_draws topic initial_world).2
           tea_passage (mask_all [chadao] tea_passage)).
  vm_compute. reflexivity.
Defined.

(** X9. The masked passage does not leak an answer: when no token of the
    annotated passage holds a space, a parenthesis or a decimal digit, the
    original morpheme of no quiz item occurs in the masked passage. *)
Theorem masked_passage_hides_answers (model : str → option str)
    (nlp : str → list Token) (rand : nat → nat) (prompt : str) (w w' : World)
    (passage masked_text : str) (quiz_items : list QuizItem) :
  create_quiz model nlp rand prompt w
  = (Ok (passage, quiz_items, masked_text), w') →
  (∀ token, token ∈ nlp passage → placeholder_free (text token)) →
  ∀ item, item ∈ quiz_items → ¬ occurs (original_morpheme item) masked_text.
Proof.
  intros Hrun Hfree item Hitem.
  destruct (create_quiz_result model nlp rand prompt w)
    as (ms & w2 & Hrun' & _ & _ & _ & Hsub & _).
  rewrite Hrun' in Hrun. simplify_eq.
  apply list_elem_of_fmap in Hitem as (m & -> & Hm).
  apply list_elem_of_filter in Hm as [_ Hm]. simpl.
  apply mask_from_clears; [|done]. intros x Hx.
  destruct (ranked_morphemes_sources
              (nlp (response_text (model (response_prompt prompt)))) x)
    as (token & Hin & <- & Hel).
  { eapply elem_of_submseteq; [apply Hsub, Hx|apply submseteq_take]. }
  split; [|by apply Hfree].
  destruct Hel as (_ & Hlen & _). intros Hnil. rewrite Hnil in Hlen.
  simpl in Hlen. lia.
Qed.

(** The masked passage of the tea scenario does not hold 茶道. *)
Lemma masked_passage_hides_answers_witness :
  (create_quiz tea_model tea_nlp no_draws topic initial_world).1
  = Ok (tea_passage,
        [{| original_morpheme := chadao; alternatives := tea_alternatives |}],
        mask_all [chadao] tea_passage)
  ∧ ¬ occurs chadao (mask_all [chadao] tea_passage).
Proof.
  split; [vm_compute; reflexivity|].
  refine (masked_passage_hides_answers tea_model tea_nlp no_draws topic
            initial_world
            (create_quiz tea_model tea_nlp no_draws topic initial_world).2
            tea_passage (mask_all [chadao] tea_passage)
            [{| original_morpheme := chadao; alternatives := tea_alternatives |}]
            _ _
            {| original_morpheme := chadao; alternatives := tea_alternatives |}
            _).
  - vm_compute. reflexivity.
  - intros token Htoken. apply list_elem_of_singleton in Htoken as ->.
    intros c Hc. revert c Hc. apply Forall_forall.
    unfold placeholder_char. refine (bool_decide_unpack _ _).
    vm_compute. exact I.
  - apply list_elem_of_singleton. reflexivity.
Defined.

(** X10. Masking is idempotent: for morphemes of at least one code point
    that hold no space, parenthesis or decimal digit, the loop of
    [create_quiz] run again on the text it has masked returns that text
    unchanged. *)
Theorem masking_idempotent (model : str → option str)
    (target_morphemes : list str) (quiz_items : list QuizItem)
    (response : str) (w : World) :
  (∀ m, m ∈ target_morphemes → m ≠ [] ∧ placeholder_free m) →
  ∃ quiz_items1 masked_text w1 quiz_items2 w2,
    quiz_loop model 0 target_morphemes quiz_items response w
    = (Ok (quiz_items1, masked_text), w1)
    ∧ quiz_loop model 0 target_morphemes quiz_items masked_text w1
      = (Ok (quiz_items2, masked_text), w2).
Proof.
  intros Hms. rewrite quiz_loop_run. eexists _, _, _. 
  rewrite quiz_loop_run. eexists _, _. split; [reflexivity|].
  f_equal. f_equal. f_equal. apply mask_from_absent. intros m Hm.
  split; [by apply Hms|]. by apply mask_from_clears.
Qed.

(** Masking 学校研究所 twice. *)
Lemma masking_idempotent_witness :
  ∃ quiz_items1 masked_text w1 quiz_items2 w2,
    quiz_loop school_model 0 school_morphemes [] school_passage initial_world
    = (Ok (quiz_items1, masked_text), w1)
    ∧ quiz_loop school_model 0 school_morphemes [] masked_text w1
      = (Ok (quiz_items2, masked_text), w2).
Proof.
  apply (masking_idempotent school_model school_morphemes [] school_passage
           initial_world).
  intros m Hm. split.
  - apply elem_of_cons in Hm as [->|Hm]; [discriminate|].
    apply list_elem_of_singleton in Hm as ->. discriminate.
  - revert m Hm. apply Forall_forall.
    constructor; [|constructor; [|constructor]];
      intros c; revert c; apply Forall_forall; unfold placeholder_char;
      refine (bool_decide_unpack _ _); vm_compute; exact I.
Defined.

(** X11. The passage [create_quiz] returns neither starts nor ends with
    whitespace, and it is empty only together with no quiz item and an
    empty masked passage. *)
Theorem returned_passage_stripped (model : str → option str)
    (nlp : str → list Token) (rand : nat → nat) (prompt : str) (w w' : World)
    (passage masked_text : str) (quiz_items : list QuizItem) :
  create_quiz model nlp rand prompt w
  = (Ok (passage, quiz_items, masked_text), w') →
  stripped passage ∧ (passage = [] → quiz_items = [] ∧ masked_text = []).
Proof.
  intros Hrun. split.
  - destruct (create_quiz_result model nlp rand prompt w)
      as (ms & w2 & Hrun' & _).
    rewrite Hrun' in Hrun. simplify_eq.
    destruct (model (response_prompt prompt)) as [answer|]; simpl.
    + apply strip_stripped.
    + by split.
  - intros ->.
    destruct (decide (response_text (model (response_prompt prompt)) = []))
      as [He|Hne].
    + rewrite (create_quiz_empty model nlp rand prompt w He) in Hrun.
      by simplify_eq.
    + destruct (create_quiz_run model nlp rand prompt w Hne)
        as (ms & w1 & w2 & _ & Hrun' & _).
      rewrite Hrun' in Hrun. by simplify_eq.
Qed.

(** The passage of the tea scenario. *)
Lemma returned_passage_stripped_witness :
  stripped tea_passage
  ∧ (tea_passage = [] →
     [{| original_morpheme := chadao; alternatives := tea_alternatives |}] = []
     ∧ mask_all [chadao] tea_passage = []).
Proof.
  apply (returned_passage_stripped tea_model tea_nlp no_draws topic
           initial_world
           (create_quiz tea_model tea_nlp no_draws topic initial_world).2).
  vm_compute. reflexivity.
Defined.

(** ** [main] *)

Section MainProps.

Variable rand : nat → nat.

(** One presentation: a new list object, shuffled in place; the objects
    that existed are untouched. *)
Lemma present_run (item : ItemRef) (alts : list str) (w : World) :
  heap w !! item_alternatives item = Some alts →
  ∃ x shuffled w',
    present rand item w = (Ok x, w')
    ∧ heap w !! x = None
    ∧ heap w' = <[x := shuffled]> (heap w)
    ∧ shuffled ≡ₚ alts ++ [item_original_morpheme item]
    ∧ calls w' = calls w.
Proof.
  intros Halts. unfold present, read, alloc. unfold mbind, M_bind, bind. unfold_M.
  rewrite (lookup_total_correct _ _ _ Halts).
  set (x := fresh (dom (heap w))).
  assert (Hfresh : heap w !! x = None) by apply not_elem_of_dom, is_fresh.
  set (w0 := {| calls := calls w; draws := draws w;
                heap := <[x := alts ++ [item_original_morpheme item]]> (heap w) |}).
  destruct (shuffle_run rand x (alts ++ [item_original_morpheme item]) w0)
    as (shuffled & w' & -> & Hh & Hp & Hc); [apply lookup_insert_eq|].
  exists x, shuffled, w'. simpl in Hh. rewrite insert_insert_eq in Hh. done.
Qed.

Lemma questions_loop_run (refs : list ItemRef) (i : nat) (w : World) :
  Forall (λ ref, is_Some (heap w !! item_alternatives ref)) refs →
  ∃ shuffles w',
    questions_loop rand i refs w = (Ok (printed_questions i shuffles), w')
    ∧ Forall2 (λ ref joined_answers,
                 ∀ alts, heap w !! item_alternatives ref = Some alts →
                         joined_answers ≡ₚ alts ++ [item_original_morpheme ref])
        refs shuffles
    ∧ heap w ⊆ heap w'
    ∧ calls w' = calls w.
Proof.
  revert i w. induction refs as [|ref refs IH]; intros i w Hrefs.
  - exists [], w. simpl. unfold_M. split_and!; done.
  - apply Forall_cons in Hrefs as [[alts Halts] Hrefs].
    destruct (present_run ref alts w Halts)
      as (x & shuffled & w1 & Hrun & Hfresh & Hh1 & Hperm & Hc1).
    assert (Hsub1 : heap w ⊆ heap w1).
    { rewrite Hh1. by apply insert_subseteq. }
    destruct (IH (S i) w1) as (shuffles & w' & Hloop & Hall & Hsub & Hc).
    { eapply Forall_impl; [exact Hrefs|]. intros r [a Ha]. exists a.
      by eapply lookup_weaken. }
    exists (shuffled :: shuffles), w'.
    split_and!.
    + cbn [questions_loop]. unfold mbind, M_bind, bind. rewrite Hrun.
      unfold read at 1. rewrite Hh1, lookup_total_insert_eq, Hloop.
      by unfold_M.
    + constructor; [intros a Ha; by simplify_eq|].
      eapply Forall2_impl; [exact Hall|]. intros r sh Hsh a Ha.
      apply Hsh. by eapply lookup_weaken.
    + by etrans.
    + by rewrite Hc.
Qed.

End MainProps.

Lemma store_items_run (quiz_items : list QuizItem) (w : World) :
  ∃ refs w',
    store_items quiz_items w = (Ok refs, w')
    ∧ calls w' = calls w
    ∧ heap w ⊆ heap w'
    ∧ Forall2 (λ item ref,
                 item_original_morpheme ref = original_morpheme item
                 ∧ heap w' !! item_alternatives ref = Some (alternatives item))
        quiz_items refs.
Proof.
  revert w. induction quiz_items as [|item rest IH]; intros w.
  - exists [], w. simpl. unfold_M. split_and!; done.
  - cbn [store_items]. unfold mbind, M_bind, bind, alloc.
    set (x := fresh (dom (heap w))).
    assert (Hfresh : heap w !! x = None) by apply not_elem_of_dom, is_fresh.
    set (w1 := {| calls := calls w; draws := draws w;
                  heap := <[x := alternatives item]> (heap w) |}).
    destruct (IH w1) as (refs & w' & -> & Hc & Hsub & Hall).
    eexists _, w'. unfold_M. split_and!; try done.
    + etrans; [|exact Hsub]. by apply insert_subseteq.
    + constructor; [|done]. simpl. split; [done|].
      eapply lookup_weaken; [|exact Hsub]. apply lookup_insert_eq.
Qed.

(** X12. Once the topic is read, [main] raises no exception of its own.
    Its [print] calls write the three headers with the passage and the
    masked passage of [create_quiz] and then one block for each quiz item,
    in order: the header numbered from 0 and, numbered from 1, the answers,
    which are a rearrangement of the item's alternatives and its original
    morpheme.  Displaying the quiz makes no call to the model or to
    [nlp]. *)
Theorem main_output (model : str → option str) (nlp : str → list Token)
    (rand : nat → nat) (prompt : str) (w : World) :
  ∃ passage quiz_items masked_text shuffles w0 w',
    create_quiz model nlp rand prompt w
    = (Ok (passage, quiz_items, masked_text), w0)
    ∧ main model nlp rand prompt w
      = (Ok ([content_header; passage; masked_header; masked_text; items_header]
             ++ printed_questions 1 shuffles), w')
    ∧ Forall2 answers_of quiz_items shuffles
    ∧ calls w' = calls w0.
Proof.
  destruct (create_quiz_result model nlp rand prompt w)
    as (ms & w0 & Hquiz & _).
  destruct (store_items_run (item_for model <$> answerable model ms) w0)
    as (refs & w1 & Hstore & Hc1 & _ & Hrefs).
  destruct (questions_loop_run rand refs 1 w1)
    as (shuffles & w' & Hloop & Hall & _ & Hc).
  { clear -Hrefs. induction Hrefs as [|item ref ? ? [_ Hx] _ IH]; by constructor. }
  eexists _, _, _, shuffles, w0, w'. split; [exact Hquiz|].
  split_and!.
  - unfold main, mbind, M_bind, bind. rewrite Hquiz. simpl.
    rewrite Hstore, Hloop. by unfold_M.
  - clear -Hrefs Hall. revert shuffles Hall.
    induction Hrefs as [|item ref items refs [Ho Hx] _ IH]; intros shuffles Hall.
    + inv Hall. constructor.
    + inv Hall. constructor; [|by apply IH].
      unfold answers_of. rewrite <-Ho. by apply H1.
  - by rewrite Hc.
Qed.

(** X13. The display loop of [main] only allocates: for quiz items whose
    lists of alternatives exist, it never raises, every list object that
    existed before the loop, the alternatives of the items among them, is
    the same after it, and no call is made. *)
Theorem display_keeps_items (rand : nat → nat) (refs : list ItemRef)
    (i : nat) (w : World) :
  (∀ ref, ref ∈ refs → is_Some (heap w !! item_alternatives ref)) →
  ∃ lines w',
    questions_loop rand i refs w = (Ok lines, w')
    ∧ (∀ x l, heap w !! x = Some l → heap w' !! x = Some l)
    ∧ calls w' = calls w.
Proof.
  intros Hrefs.
  destruct (questions_loop_run rand refs i w)
    as (shuffles & w' & Hloop & _ & Hsub & Hc); [by apply Forall_forall|].
  exists (printed_questions i shuffles), w'. split_and!; try done.
  intros x l Hx. by eapply lookup_weaken.
Qed.

(** The display of the quiz item of the tea scenario. *)
Lemma display_keeps_items_witness :
  ∃ lines w',
    questions_loop some_draws 1 [tea_item] display_world = (Ok lines, w')
    ∧ (∀ x l, heap display_world !! x = Some l → heap w' !! x = Some l)
    ∧ calls w' = calls display_world.
Proof.
  apply (display_keeps_items some_draws [tea_item] 1 display_world).
  intros ref Href. apply list_elem_of_singleton in Href as ->.
  exists tea_alternatives. reflexivity.
Defined.

(** X14. When the passage call raises or answers nothing but whitespace,
    the [print] calls of [main] write the three headers with an empty
    passage and an empty masked passage and no question, and the passage
    call is the only call made: [nlp] is not called and nothing is
    drawn. *)
Theorem main_empty_quiz (model : str → option str) (nlp : str → list Token)
    (rand : nat → nat) (prompt : str) (w : World) :
  (model (response_prompt prompt) = None
   ∨ ∃ answer, model (response_prompt prompt) = Some answer ∧ strip answer = []) →
  main model nlp rand prompt w
  = (Ok [content_header; []; masked_header; []; items_header],
     record_calls [GenerateContent (response_prompt prompt)] w).
Proof.
  intros Hfail. unfold main, mbind, M_bind, bind.
  rewrite create_quiz_empty; [done|].
  destruct Hfail as [->|(answer & -> & Hblank)]; done.
Qed.

(** The output for a model that raises. *)
Lemma main_empty_quiz_witness :
  main failing_model tea_nlp no_draws topic initial_world
  = (Ok [content_header; []; masked_header; []; items_header],
     record_calls [GenerateContent (response_prompt topic)] initial_world).
Proof. apply main_empty_quiz. left. reflexivity. Defined.
